(** * zli: the argument-processing pipeline of [index.ts]

    A shallow embedding of [parseFlags], [resolveAliases], [camelToKebab],
    [resolveKebabCase], [normalizeArrayFields], [isZodArrayType],
    [validateOptions], [processCommandExecution] and [processConfig].

    Modelling conventions:
    - a JavaScript object used as a dictionary (the flag record, the
      command registry) is a plain object: a finite map holds its own
      properties, and its prototype is [Object.prototype]. The operators
      [key in obj] and [obj[key]] also see the members of
      [Object.prototype] ([objectPrototypeKeys]); [Object.keys],
      [Object.entries], the spread [{ ...obj }] and [delete] see own
      properties only;
    - an assignment [obj[key] = v] creates or updates an own property,
      except for the key [__proto__] when it is not an own property: that
      assignment goes to the accessor of [Object.prototype] and creates no
      own property. When the assigned value is an object the engine then
      replaces the prototype of [obj]; the model does not follow a replaced
      prototype, so the statements that depend on inherited members assume
      that [__proto__] is not among the keys assigned;
    - an object whose enumeration order is observable (the alias map, the
      schema shape) is an association list in enumeration order;
    - a string is the sequence of its UTF-16 code units, and a code unit
      is an [Ascii.ascii]: the model covers the strings whose code units
      are below 256 (the Latin-1 range), written with [ascii_of_nat] where
      they are not ASCII. On these strings [length], [slice], [split] and
      [for ... of] agree on what a character is; strings with other code
      units (surrogate pairs among them) are outside the model;
    - the zod validator is an external capability: a schema carries its
      [parse] function, which either returns a value or throws;
    - [console.log], [process.exit] and [throw] are explicit: processing
      returns the list of rendering calls together with an [Outcome]. *)

From Stdlib Require Import Ascii String.
From stdpp Require Import gmap strings list fin_maps pretty.

Local Open Scope string_scope.

(** ** JavaScript string primitives used by the tokenizer *)

Module JsString.

(** [s.startsWith(p)] *)
Fixpoint startsWith (s p : string) {struct p} : bool :=
  match p with
  | EmptyString => true
  | String b p' =>
      match s with
      | EmptyString => false
      | String a s' => if Ascii.eqb a b then startsWith s' p' else false
      end
  end.

(** [s.slice(n)] for [n >= 0] *)
Fixpoint slice (n : nat) (s : string) : string :=
  match n, s with
  | O, _ => s
  | S _, EmptyString => EmptyString
  | S n', String _ s' => slice n' s'
  end.

(** [s.includes(c)] for a one-character needle *)
Fixpoint includes (c : ascii) (s : string) : bool :=
  match s with
  | EmptyString => false
  | String a s' => if Ascii.eqb a c then true else includes c s'
  end.

(** [s.split(c)] for a one-character separator *)
Fixpoint split (c : ascii) (s : string) : list string :=
  match s with
  | EmptyString => [EmptyString]
  | String a s' =>
      if Ascii.eqb a c then EmptyString :: split c s'
      else match split c s' with
           | h :: t => String a h :: t
           | [] => [String a EmptyString]
           end
  end.

(** [parts.join(sep)] *)
Fixpoint join (sep : string) (parts : list string) : string :=
  match parts with
  | [] => EmptyString
  | [p] => p
  | p :: rest => p ++ sep ++ join sep rest
  end.

(** the characters of a string, as one-character strings
    ([for (const char of key)]): the iteration is by code point, which is
    one code unit for every string of the model *)
Fixpoint chars (s : string) : list string :=
  match s with
  | EmptyString => []
  | String a s' => String a EmptyString :: chars s'
  end.

(** truthiness of a string: only the empty string is falsy *)
Definition truthy (s : string) : bool :=
  match s with EmptyString => false | _ => true end.

Definition is_upper (a : ascii) : bool :=
  let n := nat_of_ascii a in (65 <=? n)%nat && (n <=? 90)%nat.

Definition toLowerCase (a : ascii) : ascii :=
  if is_upper a then ascii_of_nat (nat_of_ascii a + 32) else a.

End JsString.

Import JsString.

(** the escape character [\x1b] *)
Definition ESC : string := String (ascii_of_nat 27) EmptyString.

(** ** Data model *)

(** [string | boolean] (and numbers, which only a validator produces);
    [SMember name] is the value read under [name] through the prototype:
    the function [Object.prototype[name]], and [Object.prototype] itself
    for [__proto__] *)
Inductive Scalar :=
  | SBool (b : bool)
  | SStr (s : string)
  | SNum (n : Z)
  | SMember (name : string).

(** a flag value: [string | boolean | string[]] *)
Inductive Value :=
  | VScalar (s : Scalar)
  | VArr (l : list Scalar).

Definition isArray (v : Value) : bool :=
  match v with VArr _ => true | VScalar _ => false end.

(** [Record<string, any>]: the own properties *)
Abbreviation Flags := (gmap string Value).

(** ** Property access on a plain object *)

(** the property names of [Object.prototype] *)
Definition objectPrototypeKeys : list string :=
  ["constructor"; "__defineGetter__"; "__defineSetter__"; "hasOwnProperty";
   "__lookupGetter__"; "__lookupSetter__"; "isPrototypeOf";
   "propertyIsEnumerable"; "toString"; "valueOf"; "__proto__";
   "toLocaleString"].

Definition inherited (key : string) : bool :=
  bool_decide (key ∈ objectPrototypeKeys).

(** [key in obj] *)
Definition hasProperty (obj : Flags) (key : string) : bool :=
  match obj !! key with
  | Some _ => true
  | None => inherited key
  end.

(** [obj[key]]; [None] is [undefined] *)
Definition getProperty (obj : Flags) (key : string) : option Value :=
  match obj !! key with
  | Some v => Some v
  | None => if inherited key then Some (VScalar (SMember key)) else None
  end.

(** [obj[key] = v]: an own property is updated; otherwise the members of
    [Object.prototype] are writable data properties, which the assignment
    shadows with a new own property, except [__proto__], an accessor that
    takes the assignment and creates no own property *)
Definition setProperty (obj : Flags) (key : string) (v : Value) : Flags :=
  match obj !! key with
  | Some _ => <[key := v]> obj
  | None => if String.eqb key "__proto__" then obj else <[key := v]> obj
  end.

(** the zod type constructors the pipeline inspects *)
Inductive ZodType :=
  | ZodString
  | ZodBoolean
  | ZodNumber
  | ZodArray (element : ZodType)
  | ZodOptional (innerType : ZodType)
  | ZodDefault (innerType : ZodType) (defaultValue : Value)
  | ZodNullable (innerType : ZodType).

Inductive PathSegment :=
  | PKey (k : string)
  | PIndex (i : N).

Record ZodIssue := { path : list PathSegment; message : string }.

(** what can be thrown: a plain [Error] or the validator's [ZodError] *)
Inductive Exn :=
  | Error (msg : string)
  | ZodError (issues : list ZodIssue).

(** [z.ZodObject]: the shape in key order, and the external [parse] *)
Record ZodObject := {
  shape : list (string * ZodType);
  parse : Flags -> Exn + Flags
}.

(** the positional schema, any [z.ZodType] *)
Record ArgsSchema := { parseArgs : list string -> Exn + Value }.

Record OptionsDefinition := {
  schema : ZodObject;
  aliases : option (list (string * string))
}.

Record CommandDefinition := {
  description : option string;
  options : option OptionsDefinition;
  args : option ArgsSchema
}.

Record Meta := {
  name : option string;
  version : option string;
  meta_description : option string
}.

Record DefineConfig := {
  meta : option Meta;
  commands : gmap string CommandDefinition;
  defaultCommand : option CommandDefinition
}.

Record ProcessResult := {
  result_command : CommandDefinition;
  result_options : Flags;
  result_args : Value
}.

(** calls to the help renderers, in order *)
Inductive Rendered :=
  | DisplayHelp
  | DisplayCommandHelp (commandName : string).

Inductive Outcome :=
  | Returned (r : ProcessResult)
  | Threw (e : Exn)
  | Exited (code : Z).

(** ** parseFlags *)

Definition addFlag (key : string) (value : Scalar) (flags : Flags) : Flags :=
  if hasProperty flags key then
    match getProperty flags key with
    | Some (VArr l) =>
        (* [existing.push(value)]: an array is always an own property *)
        <[key := VArr (l ++ [value])]> flags
    | Some (VScalar e) => setProperty flags key (VArr [e; value])
    | None => flags (* not reached: [key in flags] holds *)
    end
  else setProperty flags key (VScalar value).

(** the loop of [parseFlags]; the state is [flags] and [nonFlags].
    [arg.length] and [key.length] count code units and
    [for (const char of key)] iterates code points: on the strings of the
    model both are the characters of the string *)
Fixpoint parseFlags_loop (argv : list string) (flags : Flags) (nonFlags : list string)
  : Flags * list string :=
  match argv with
  | [] => (flags, nonFlags)
  | arg :: rest =>
      if negb (truthy arg) then parseFlags_loop rest flags nonFlags
      else if startsWith arg "--" then
        let key := slice 2 arg in
        if includes "="%char key then
          match split "="%char key with
          | flagName :: valueParts =>
              if truthy flagName
              then parseFlags_loop rest (addFlag flagName (SStr (join "=" valueParts)) flags) nonFlags
              else parseFlags_loop rest flags nonFlags
          | [] => parseFlags_loop rest flags nonFlags
          end
        else
          match rest with
          | nextArg :: rest' =>
              if truthy nextArg && negb (startsWith nextArg "-")
              then parseFlags_loop rest' (addFlag key (SStr nextArg) flags) nonFlags
              else parseFlags_loop rest (addFlag key (SBool true) flags) nonFlags
          | [] => parseFlags_loop rest (addFlag key (SBool true) flags) nonFlags
          end
      else if startsWith arg "-" && (1 <? String.length arg)%nat then
        let key := slice 1 arg in
        if (String.length key =? 1)%nat then
          match rest with
          | nextArg :: rest' =>
              if truthy nextArg && negb (startsWith nextArg "-")
              then parseFlags_loop rest' (addFlag key (SStr nextArg) flags) nonFlags
              else parseFlags_loop rest (addFlag key (SBool true) flags) nonFlags
          | [] => parseFlags_loop rest (addFlag key (SBool true) flags) nonFlags
          end
        else
          parseFlags_loop rest
            (fold_left (fun fl char => addFlag char (SBool true) fl) (chars key) flags)
            nonFlags
      else parseFlags_loop rest flags (nonFlags ++ [arg])
  end.

(** [{ ...flags, _: nonFlags }] *)
Definition parseFlags (argv : list string) : Flags :=
  let '(flags, nonFlags) := parseFlags_loop argv ∅ [] in
  <["_" := VArr (SStr <$> nonFlags)]> flags.

(** ** resolveAliases, camelToKebab, resolveKebabCase *)

(** the body of the loop of [resolveAliases] *)
Definition resolveAlias (resolved : Flags) (entry : string * string) : Flags :=
  let '(alias, target) := entry in
  if hasProperty resolved alias then
    match getProperty resolved alias with
    | Some v => delete alias (setProperty resolved target v)
    | None => resolved
    end
  else resolved.

Definition resolveAliases (flags : Flags) (aliases : option (list (string * string))) : Flags :=
  match aliases with
  | None => flags
  | Some entries => fold_left resolveAlias entries flags
  end.

Fixpoint camelToKebab (str : string) : string :=
  match str with
  | EmptyString => EmptyString
  | String letter str' =>
      if is_upper letter
      then String "-"%char (String (toLowerCase letter) (camelToKebab str'))
      else String letter (camelToKebab str')
  end.

(** the body of the loop of [resolveKebabCase] *)
Definition resolveKebabKey (resolved : Flags) (camelKey : string) : Flags :=
  if negb (hasProperty resolved camelKey) then
    let kebabKey := camelToKebab camelKey in
    if hasProperty resolved kebabKey then
      match getProperty resolved kebabKey with
      | Some v => delete kebabKey (setProperty resolved camelKey v)
      | None => resolved
      end
    else resolved
  else resolved.

Definition resolveKebabCase (flags : Flags) (schema : ZodObject) : Flags :=
  let schemaKeys := (shape schema).*1 in
  fold_left resolveKebabKey schemaKeys flags.

(** ** normalizeArrayFields, isZodArrayType *)

(** the [while] loop of [isZodArrayType]: only [ZodOptional] and
    [ZodDefault] are unwrapped *)
Fixpoint unwrap (zodType : ZodType) : ZodType :=
  match zodType with
  | ZodOptional next => unwrap next
  | ZodDefault next _ => unwrap next
  | _ => zodType
  end.

Definition isZodArrayType (zodType : ZodType) : bool :=
  match unwrap zodType with
  | ZodArray _ => true
  | _ => false
  end.

(** the body of the loop of [normalizeArrayFields] *)
Definition normalizeArrayField (normalized : Flags) (entry : string * ZodType) : Flags :=
  let '(key, zodType) := entry in
  if hasProperty normalized key then
    let isArrayField := isZodArrayType zodType in
    match getProperty normalized key with
    | Some v =>
        if isArrayField && negb (isArray v)
        then match v with
             | VScalar s => setProperty normalized key (VArr [s])
             | VArr _ => normalized
             end
        else normalized
    | None => normalized
    end
  else normalized.

Definition normalizeArrayFields (options : Flags) (schema : ZodObject) : Flags :=
  fold_left normalizeArrayField (shape schema) options.

(** ** validateOptions, processCommandExecution, processConfig *)

(** the object handed to [schema.parse] *)
Definition normalizedOptions (flags : Flags) (optionsDef : OptionsDefinition) : Flags :=
  let resolvedAliases := resolveAliases flags (aliases optionsDef) in
  let resolvedKebab := resolveKebabCase resolvedAliases (schema optionsDef) in
  let options := delete "_" resolvedKebab in
  normalizeArrayFields options (schema optionsDef).

Definition validateOptions (flags : Flags) (optionsDef : option OptionsDefinition)
  : Exn + Flags :=
  match optionsDef with
  | None => inr ∅
  | Some od => parse (schema od) (normalizedOptions flags od)
  end.

Definition segment_to_string (seg : PathSegment) : string :=
  match seg with
  | PKey k => k
  | PIndex i => pretty i
  end.

(** [`${issue.path.join('.')}: ${issue.message}`] *)
Definition issue_to_string (issue : ZodIssue) : string :=
  join "." (segment_to_string <$> path issue) ++ ": " ++ message issue.

Definition processCommandExecution
    (command : CommandDefinition) (parsedFlags : Flags) (argv : list string) : Outcome :=
  match validateOptions parsedFlags (options command) with
  | inl e => Threw e
  | inr opts =>
      match args command with
      | None =>
          Returned {| result_command := command; result_options := opts;
                      result_args := VArr (SStr <$> argv) |}
      | Some argsSchema =>
          match parseArgs argsSchema argv with
          | inr validatedArgs =>
              Returned {| result_command := command; result_options := opts;
                          result_args := validatedArgs |}
          | inl (ZodError issues) =>
              Threw (Error ("Argument validation failed: "
                            ++ join ", " (issue_to_string <$> issues)))
          | inl error => Threw error
          end
      end
  end.

(** [parsedFlags.help === true] *)
Definition help_is_true (parsedFlags : Flags) : bool :=
  match parsedFlags !! "help" with
  | Some (VScalar (SBool true)) => true
  | _ => false
  end.

(** [(parsedFlags._ as string[]) || []] *)
Definition commandArgs_of (parsedFlags : Flags) : list string :=
  match parsedFlags !! "_" with
  | Some (VArr l) =>
      omap (fun s => match s with SStr x => Some x | _ => None end) l
  | _ => []
  end.

(** what [config.commands[commandName]] finds under a name that is not
    registered but is a member of [Object.prototype]: an object without
    [description], [options] and [args] *)
Definition inheritedMember : CommandDefinition :=
  {| description := None; options := None; args := None |}.

(** [config.commands[commandName]]; [None] is [undefined] *)
Definition lookupCommand (config : DefineConfig) (commandName : string)
  : option CommandDefinition :=
  match commands config !! commandName with
  | Some command => Some command
  | None => if inherited commandName then Some inheritedMember else None
  end.

Definition processConfig (config : DefineConfig) (argv : list string)
  : list Rendered * Outcome :=
  let parsedFlags := parseFlags argv in
  let commandArgs := commandArgs_of parsedFlags in
  (* the branch taken when [!commandName] *)
  let noCommandName :=
    if help_is_true parsedFlags then ([DisplayHelp], Exited 0)
    else match defaultCommand config with
         | Some dc => ([], processCommandExecution dc parsedFlags commandArgs)
         | None => ([DisplayHelp], Threw (Error "No command specified."))
         end in
  match commandArgs with
  | [] => noCommandName
  | commandName :: _ =>
      if negb (truthy commandName) then noCommandName
      else
        match lookupCommand config commandName with
        | None =>
            ([DisplayHelp],
             Threw (Error ("Unknown command: " ++ ESC ++ "[36m" ++ commandName ++ ESC ++ "[0m")))
        | Some command =>
            let remainingArgs := tail commandArgs in
            if help_is_true parsedFlags
            then ([DisplayCommandHelp commandName], Exited 0)
            else ([], processCommandExecution command parsedFlags remainingArgs)
        end
  end.

(** ** The calls the tokenizer performs

    [tokenize] lists, in order, the [addFlag(key, value)] calls and the
    [nonFlags.push(arg)] calls that the loop of [parseFlags] performs on an
    argument vector; [parseFlags_loop_tokenize] below proves that the loop
    is the replay of that list. *)

Inductive Token :=
  | Flag (key : string) (value : Scalar)
  | Positional (arg : string).

Definition cluster (key : string) : list Token :=
  (fun char => Flag char (SBool true)) <$> chars key.

Fixpoint tokenize (argv : list string) : list Token :=
  match argv with
  | [] => []
  | arg :: rest =>
      if negb (truthy arg) then tokenize rest
      else if startsWith arg "--" then
        let key := slice 2 arg in
        if includes "="%char key then
          match split "="%char key with
          | flagName :: valueParts =>
              if truthy flagName
              then Flag flagName (SStr (join "=" valueParts)) :: tokenize rest
              else tokenize rest
          | [] => tokenize rest
          end
        else
          match rest with
          | nextArg :: rest' =>
              if truthy nextArg && negb (startsWith nextArg "-")
              then Flag key (SStr nextArg) :: tokenize rest'
              else Flag key (SBool true) :: tokenize rest
          | [] => Flag key (SBool true) :: tokenize rest
          end
      else if startsWith arg "-" && (1 <? String.length arg)%nat then
        let key := slice 1 arg in
        if (String.length key =? 1)%nat then
          match rest with
          | nextArg :: rest' =>
              if truthy nextArg && negb (startsWith nextArg "-")
              then Flag key (SStr nextArg) :: tokenize rest'
              else Flag key (SBool true) :: tokenize rest
          | [] => Flag key (SBool true) :: tokenize rest
          end
        else cluster key ++ tokenize rest
      else Positional arg :: tokenize rest
  end.

Definition replay (st : Flags * list string) (t : Token) : Flags * list string :=
  match t with
  | Flag key value => (addFlag key value st.1, st.2)
  | Positional arg => (st.1, (st.2 ++ [arg])%list)
  end.

(** the values registered for [key], in order of occurrence *)
Definition occurrences (key : string) (ts : list Token) : list Scalar :=
  omap (fun t => match t with
                 | Flag k v => if decide (k = key) then Some v else None
                 | Positional _ => None
                 end) ts.

(** the positional list *)
Definition positionals (ts : list Token) : list string :=
  omap (fun t => match t with Positional a => Some a | Flag _ _ => None end) ts.

(** what [k] successive [addFlag] calls leave under a fresh key *)
Definition accumulated (values : list Scalar) : option Value :=
  match values with
  | [] => None
  | [v] => Some (VScalar v)
  | _ :: _ :: _ => Some (VArr values)
  end.

(** what [k] successive [addFlag] calls leave under a key that names a
    member of [Object.prototype]: the first call finds the member *)
Definition accumulatedMember (key : string) (values : list Scalar) : option Value :=
  match values with
  | [] => None
  | _ :: _ => Some (VArr (SMember key :: values))
  end.

(** one [addFlag] on the entry of its key *)
Definition push (existing : option Value) (value : Scalar) : Value :=
  match existing with
  | None => VScalar value
  | Some (VScalar e) => VArr [e; value]
  | Some (VArr l) => VArr (l ++ [value])
  end.

(** the one-token lookahead of a flag given without an attached value:
    [nextArg && !nextArg.startsWith('-')] decides between consuming
    [nextArg] and registering boolean [true] *)
Definition lookahead (key : string) (rest : list string) (flags : Flags)
    (nonFlags : list string) : Flags * list string :=
  match rest with
  | nextArg :: rest' =>
      if truthy nextArg && negb (startsWith nextArg "-")
      then parseFlags_loop rest' (addFlag key (SStr nextArg) flags) nonFlags
      else parseFlags_loop rest (addFlag key (SBool true) flags) nonFlags
  | [] => (addFlag key (SBool true) flags, nonFlags)
  end.

(** The lookahead rule in the words of the specification: the next token
    is consumed as the value iff it exists and does not begin with a dash. *)
Definition spec_consumes_next (rest : list string) : bool :=
  match rest with
  | nextArg :: _ => negb (startsWith nextArg "-")
  | [] => false
  end.

(** ** A reference validator for the examples

    Zod is an external library: the theorems below hold for every [parse].
    The concrete examples need some validator to run; [z_object] gives a
    schema the part of [z.object(shape).parse] that they rely on: every
    declared field is checked against its type, an absent optional field is
    left out, an absent defaulted field takes its default, an absent
    required field is an issue, and undeclared keys are stripped. *)

Definition checkScalar (zodType : ZodType) (s : Scalar) : bool :=
  match zodType, s with
  | ZodString, SStr _ => true
  | ZodBoolean, SBool _ => true
  | ZodNumber, SNum _ => true
  | _, _ => false
  end.

Fixpoint checkType (zodType : ZodType) (input : option Value) : string + option Value :=
  match zodType with
  | ZodOptional inner =>
      match input with None => inr None | Some _ => checkType inner input end
  | ZodDefault inner d =>
      match input with None => inr (Some d) | Some _ => checkType inner input end
  | ZodNullable inner => checkType inner input
  | ZodArray element =>
      match input with
      | None => inl "Required"
      | Some (VArr l) =>
          if forallb (checkScalar element) l then inr input else inl "Invalid element"
      | Some (VScalar _) => inl "Expected array"
      end
  | _ =>
      match input with
      | None => inl "Required"
      | Some (VScalar s) =>
          if checkScalar zodType s then inr input else inl "Invalid type"
      | Some (VArr _) => inl "Invalid type"
      end
  end.

Definition referenceParse (fields : list (string * ZodType)) (input : Flags) : Exn + Flags :=
  (* zod reads [data[key]] for every declared key *)
  let checked :=
    (fun '(key, zodType) => (key, checkType zodType (getProperty input key))) <$> fields in
  let issues :=
    omap (fun '(key, res) =>
            match res with
            | inl msg => Some {| path := [PKey key]; message := msg |}
            | inr _ => None
            end) checked in
  match issues with
  | [] =>
      inr (list_to_map
             (omap (fun '(key, res) =>
                      match res with
                      | inr (Some v) => Some (key, v)
                      | _ => None
                      end) checked))
  | _ :: _ => inl (ZodError issues)
  end.

(** [z.object(fields)] *)
Definition z_object (fields : list (string * ZodType)) : ZodObject :=
  {| shape := fields; parse := referenceParse fields |}.

(** [z.tuple([z.string(), ..., z.string()])] with [n] components *)
Definition z_tuple_of_strings (n : nat) : ArgsSchema :=
  {| parseArgs := fun argv =>
       if (List.length argv =? n)%nat then inr (VArr (SStr <$> argv))
       else inl (ZodError [{| path := []; message := "Invalid tuple length" |}]) |}.

(** ** The commands of the test-suite used in the examples *)

(** [defineCommand({ options: defineOptions(z.object(fields)), action })] *)
Definition commandWithOptions (fields : list (string * ZodType)) : CommandDefinition :=
  {| description := None;
     options := Some {| schema := z_object fields; aliases := None |};
     args := None |}.

(** [defineCommand({ action })] *)
Definition commandWithoutOptions : CommandDefinition :=
  {| description := None; options := None; args := None |}.


(** [defineConfig({ commands: { test: command } })] *)
Definition configWithTest (command : CommandDefinition) : DefineConfig :=
  {| meta := None; commands := {[ "test" := command ]}; defaultCommand := None |}.

(** [processConfig] with both [parsedFlags.help === true] tests answered
    [false]: processing as if help had not been requested *)
Definition processWithoutHelp (config : DefineConfig) (argv : list string)
  : list Rendered * Outcome :=
  let parsedFlags := parseFlags argv in
  match positionals (tokenize argv) with
  | [] =>
      match defaultCommand config with
      | Some dc => ([], processCommandExecution dc parsedFlags [])
      | None => ([DisplayHelp], Threw (Error "No command specified."))
      end
  | commandName :: remainingArgs =>
      match lookupCommand config commandName with
      | None =>
          ([DisplayHelp],
           Threw (Error ("Unknown command: " ++ ESC ++ "[36m" ++ commandName ++ ESC ++ "[0m")))
      | Some command => ([], processCommandExecution command parsedFlags remainingArgs)
      end
  end.


(** ** Auxiliary notions used in the statements *)

(** the loop agrees with the replay of its calls on [argv] *)
Definition replayed (argv : list string) : Prop :=
  forall (flags : Flags) (nonFlags : list string),
    parseFlags_loop argv flags nonFlags
    = fold_left replay (tokenize argv) (flags, nonFlags).

(** no other schema field is spelled like [camelKey] or like its
    hyphenated variant once hyphenated *)
Definition apart (camelKey : string) (keys : list string) : Prop :=
  forall other, other ∈ keys -> other <> camelKey ->
    camelToKebab other <> camelToKebab camelKey /\ camelToKebab other <> camelKey.

(** some entry of [fields] declares [key] as array-typed *)
Definition declaredArray (key : string) (fields : list (string * ZodType)) : bool :=
  existsb (fun entry => bool_decide (entry.1 = key) && isZodArrayType entry.2) fields.

(** a lone scalar is wrapped, anything else is kept *)
Definition wrapScalar (isArrayField : bool) (o : option Value) : option Value :=
  match o with
  | Some (VScalar s) => if isArrayField then Some (VArr [s]) else o
  | _ => o
  end.

(** the entry of [key] after normalization, from its entry before: a lone
    scalar is wrapped; an absent key that names a member of
    [Object.prototype] is found through the prototype and the member is
    wrapped (for [__proto__] the assignment creates no entry) *)
Definition wrapField (isArrayField : bool) (key : string) (o : option Value)
  : option Value :=
  match o with
  | Some (VScalar s) => if isArrayField then Some (VArr [s]) else o
  | Some (VArr _) => o
  | None =>
      if isArrayField && inherited key && negb (String.eqb key "__proto__")
      then Some (VArr [SMember key])
      else None
  end.

(** [--help] followed by a token it consumes *)
Definition help_with_value (argv : list string) : Prop :=
  exists pre nextArg post,
    argv = (pre ++ "--help" :: nextArg :: post)%list
    /\ truthy nextArg = true /\ startsWith nextArg "-" = false.

(** [--help] given more than once *)
Definition help_repeated (argv : list string) : Prop :=
  exists pre mid post, argv = (pre ++ "--help" :: mid ++ "--help" :: post)%list.

(** ** Help rendering: extractDefaultValue, displayHeader, displayHelp,
    displayCommandHelp

    Each renderer returns the list of its [console.log] calls, in order.
    [displayHelp] enumerates the registry, so it takes the entries of
    [commands] in enumeration order. Two capabilities of the runtime are
    parameters: the conversion of a number to a string, and the
    [description] that zod keeps on the type object of a declared field. *)

(** the line feed [\n] and the double quote *)
Definition LF : string := String (ascii_of_nat 10) EmptyString.
Definition QUOTE : string := String (ascii_of_nat 34) EmptyString.

(** [' '.repeat(n)] *)
Fixpoint spaces (n : nat) : string :=
  match n with
  | O => EmptyString
  | S n' => String " " (spaces n')
  end.

(** [value || fallback] on an optional string: [undefined] and the empty
    string are falsy *)
Definition orElse (value : option string) (fallback : string) : string :=
  match value with
  | Some s => if truthy s then s else fallback
  | None => fallback
  end.

(** what [if (value) parts.push(value)] pushes *)
Definition pushed (value : option string) : list string :=
  match value with
  | Some s => if truthy s then [s] else []
  | None => []
  end.

(** [meta?.name], [meta?.version], [meta?.description] *)
Definition metaName (meta : option Meta) : option string :=
  match meta with Some m => name m | None => None end.
Definition metaVersion (meta : option Meta) : option string :=
  match meta with Some m => version m | None => None end.
Definition metaDescription (meta : option Meta) : option string :=
  match meta with Some m => meta_description m | None => None end.

Definition displayHeader
    (commandName description packageName version : option string) : list string :=
  let parts := pushed description in
  let versionPart := (fun v => "v" ++ v) <$> pushed version in
  let metaParts := (pushed packageName ++ pushed commandName ++ versionPart)%list in
  let metaPart := "(" ++ join " " metaParts ++ ")" in
  let parts :=
    match metaParts with
    | [] => parts
    | _ :: _ => (parts ++ [metaPart])%list
    end in
  match parts with
  | [] => []
  | _ :: _ => [ESC ++ "[90m" ++ join " " parts ++ ESC ++ "[0m" ++ LF]
  end.

(** [' '.repeat(Math.max(2, maxLength - length + 4))] *)
Definition padding (maxLength length : nat) : string :=
  spaces (Z.to_nat (Z.max 2 (Z.of_nat maxLength - Z.of_nat length + 4))).

(** one row of the command list *)
Definition commandRow (maxLength : nat) (entry : string * CommandDefinition) : string :=
  let '(name, command) := entry in
  let description := orElse (description command) "" in
  "  " ++ ESC ++ "[36m" ++ name ++ ESC ++ "[0m"
  ++ padding maxLength (String.length name) ++ description.

(** [Math.max(...names.map((name) => name.length))]; for an empty registry
    JavaScript yields [-Infinity], which no row ever reads *)
Definition maxNameLength (names : list string) : nat :=
  max_list (String.length <$> names).

Definition displayHelp (entries : list (string * CommandDefinition)) (meta : option Meta)
  : list string :=
  let commandNames := join "|" entries.*1 in
  let usageName := orElse (metaName meta) "cli" in
  let usage :=
    ESC ++ "[1mUSAGE" ++ ESC ++ "[0m " ++ ESC ++ "[36m" ++ usageName ++ " "
    ++ commandNames ++ ESC ++ "[0m" ++ LF in
  let heading := ESC ++ "[1mCOMMANDS" ++ ESC ++ "[0m" ++ LF in
  let maxLength := maxNameLength entries.*1 in
  let footer :=
    match pushed (metaName meta) with
    | [] => []
    | metaName :: _ =>
        [LF ++ "Use " ++ ESC ++ "[36m" ++ metaName ++ " <command> --help" ++ ESC
         ++ "[0m for more information about a command."]
    end in
  (displayHeader None (metaDescription meta) (metaName meta) (metaVersion meta)
   ++ [usage; heading]
   ++ (commandRow maxLength <$> entries)
   ++ footer)%list.

(** [Object.keys(aliases).find((alias) => aliases[alias] === key)] *)
Definition aliasOf (aliases : list (string * string)) (key : string) : option string :=
  fst <$> List.find (fun entry => String.eqb entry.2 key) aliases.

(** the visible text of an option: [`  --${kebabKey}${alias ? `, -${alias}` : ''}`] *)
Definition visibleOption (aliases : list (string * string)) (key : string) : string :=
  "  --" ++ camelToKebab key
  ++ match pushed (aliasOf aliases key) with
     | [] => ""
     | alias :: _ => ", -" ++ alias
     end.

(** the first loop of [displayCommandHelp] *)
Definition maxOptionLength (aliases : list (string * string))
    (fields : list (string * ZodType)) : nat :=
  fold_left (fun maxLength '(key, _) =>
               Nat.max maxLength (String.length (visibleOption aliases key)))
    fields 0%nat.

Section Rendering.

(** the conversion of a JavaScript number to a string *)
Variable numberToString : Z -> string.

(** [zodType.description] of the field declared under a key *)
Variable description_of : string -> ZodType -> option string.

(** [String(value)] *)
Definition scalarToString (s : Scalar) : string :=
  match s with
  | SBool true => "true"
  | SBool false => "false"
  | SStr x => x
  | SNum n => numberToString n
  | SMember name =>
      (* a built-in function, as V8 prints it; [Object.prototype] itself *)
      if String.eqb name "__proto__" then "[object Object]"
      else "function "
           ++ (if String.eqb name "constructor" then "Object" else name)
           ++ "() { [native code] }"
  end.

(** strings in double quotes, anything else through [String(value)] *)
Definition formatDefault (value : Value) : string :=
  match value with
  | VScalar (SStr x) => QUOTE ++ x ++ QUOTE
  | VScalar s => scalarToString s
  | VArr l => join "," (scalarToString <$> l)
  end.

(** the loop of [extractDefaultValue]: it stops at the first [ZodDefault],
    and otherwise follows [_def.innerType] (optional, nullable) or
    [_def.type] (the element of an array) as long as there is one *)
Fixpoint extractDefaultValue (zodType : ZodType) : option string :=
  match zodType with
  | ZodDefault _ defaultValue => Some (formatDefault defaultValue)
  | ZodOptional innerType => extractDefaultValue innerType
  | ZodNullable innerType => extractDefaultValue innerType
  | ZodArray element => extractDefaultValue element
  | _ => None
  end.

(** the description column of an option row *)
Definition finalDescription (key : string) (zodType : ZodType) : string :=
  let description := orElse (description_of key zodType) "" in
  match extractDefaultValue zodType with
  | Some defaultValue =>
      description ++ (if truthy description then " " else "")
      ++ "(default: " ++ defaultValue ++ ")"
  | None => description
  end.

(** one row of the option list *)
Definition optionRow (aliases : list (string * string)) (maxLength : nat)
    (entry : string * ZodType) : string :=
  let '(key, zodType) := entry in
  let optionLine :=
    "  " ++ ESC ++ "[36m--" ++ camelToKebab key ++ ESC ++ "[0m"
    ++ match pushed (aliasOf aliases key) with
       | [] => ""
       | alias :: _ => ", " ++ ESC ++ "[36m-" ++ alias ++ ESC ++ "[0m"
       end in
  optionLine
  ++ padding maxLength (String.length (visibleOption aliases key))
  ++ finalDescription key zodType.

Definition displayCommandHelp (commandName : string) (command : CommandDefinition)
    (meta : option Meta) : list string :=
  let usageName := orElse (metaName meta) "cli" in
  let usageLine :=
    ESC ++ "[1mUSAGE" ++ ESC ++ "[0m " ++ ESC ++ "[36m" ++ usageName ++ " " ++ commandName
    ++ (match options command with Some _ => " [OPTIONS]" | None => "" end)
    ++ (match args command with Some _ => " [ARGS]" | None => "" end) in
  let usage := usageLine ++ ESC ++ "[0m" ++ LF in
  let heading := ESC ++ "[1mOPTIONS" ++ ESC ++ "[0m" ++ LF in
  let optionList :=
    match options command with
    | Some optionsDef =>
        let fields := shape (schema optionsDef) in
        let aliases := default [] (aliases optionsDef) in
        let maxLength := maxOptionLength aliases fields in
        heading :: (optionRow aliases maxLength <$> fields)
    | None => []
    end in
  (displayHeader (Some commandName) (description command) (metaName meta) (metaVersion meta)
   ++ [usage] ++ optionList)%list.

End Rendering.

(** ** Notions used in the further properties *)

(** the values the tokenizer registers: boolean [true] or a string *)
Definition flagValue (v : Scalar) : Prop := v = SBool true \/ exists s, v = SStr s.

(** the values the tokenizer leaves in the flag record *)
Definition storedValue (v : Value) : Prop :=
  match v with
  | VScalar s => flagValue s
  | VArr l => (2 <= List.length l)%nat /\ Forall flagValue l
  end.

(** some letter of the string is an uppercase ASCII letter *)
Fixpoint hasUpper (s : string) : bool :=
  match s with
  | EmptyString => false
  | String a s' => is_upper a || hasUpper s'
  end.

(** the loop body of [resolveKebabCase] has nothing left to do for
    [camelKey]: the key is in the record, or its hyphenated variant is
    absent *)
Definition settled (r : Flags) (camelKey : string) : Prop :=
  hasProperty r camelKey = true \/ r !! camelToKebab camelKey = None.

(** [zodType.optional()] or [zodType.nullable()], applied outermost last *)
Inductive Wrapper := Optional | Nullable.

Definition wrap (w : Wrapper) (zodType : ZodType) : ZodType :=
  match w with
  | Optional => ZodOptional zodType
  | Nullable => ZodNullable zodType
  end.

(** tokenizing [pre] and then a token that begins with a dash agrees with
    tokenizing [pre] on its own first *)
Definition cuttable (pre : list string) : Prop :=
  forall arg rest,
    startsWith arg "-" = true ->
    tokenize (pre ++ arg :: rest) = (tokenize pre ++ tokenize (arg :: rest))%list.

(** ** String lemmas *)

Section StringFacts.

Lemma truthy_true s : truthy s = true <-> s <> EmptyString.
Proof. destruct s; simpl; split; congruence. Qed.






Lemma startsWith_app p s : startsWith (p ++ s) p = true.
Proof.
  induction p as [|a p IH]; [done|].
  change (String a p ++ s) with (String a (p ++ s)).
  cbn [startsWith]. by rewrite Ascii.eqb_refl.
Qed.

Lemma slice_app p s : slice (String.length p) (p ++ s) = s.
Proof. induction p as [|a p IH]; simpl; [by destruct s|done]. Qed.

End StringFacts.

(** ** Property access *)

Section PropertyFacts.

Implicit Types (obj : Flags) (key : string) (v : Value).

Lemma not_inherited_proto key : inherited key = false -> key <> "__proto__".
Proof. by intros H ->. Qed.

Lemma inherited_elem_of key : inherited key = true <-> key ∈ objectPrototypeKeys.
Proof. unfold inherited. by rewrite bool_decide_eq_true. Qed.

Lemma hasProperty_own obj key :
  inherited key = false -> hasProperty obj key = bool_decide (is_Some (obj !! key)).
Proof.
  intros H. unfold hasProperty. rewrite H.
  destruct (obj !! key); [by rewrite bool_decide_eq_true_2|].
  rewrite bool_decide_eq_false_2; [done|]. by intros [? ?].
Qed.

Lemma getProperty_own obj key : inherited key = false -> getProperty obj key = obj !! key.
Proof. intros H. unfold getProperty. rewrite H. by destruct (obj !! key). Qed.

Lemma getProperty_present obj key v : obj !! key = Some v -> getProperty obj key = Some v.
Proof. intros H. unfold getProperty. by rewrite H. Qed.

Lemma hasProperty_present obj key v : obj !! key = Some v -> hasProperty obj key = true.
Proof. intros H. unfold hasProperty. by rewrite H. Qed.

Lemma hasProperty_getProperty obj key :
  hasProperty obj key = true <-> is_Some (getProperty obj key).
Proof.
  unfold hasProperty, getProperty.
  destruct (obj !! key); [by split; [eexists|]|].
  destruct (inherited key); [by split; [eexists|]|].
  split; [done|]. by intros [? ?].
Qed.

Lemma hasProperty_false obj key :
  hasProperty obj key = false <-> obj !! key = None /\ inherited key = false.
Proof.
  unfold hasProperty. destruct (obj !! key); [by split; [|intros [? ?]]|].
  by split; [|intros [? ?]].
Qed.

Lemma lookup_setProperty_eq obj key v :
  key <> "__proto__" -> setProperty obj key v !! key = Some v.
Proof.
  intros H. unfold setProperty.
  destruct (obj !! key) eqn:E; [by rewrite lookup_insert_eq|].
  apply String.eqb_neq in H. rewrite H. by rewrite lookup_insert_eq.
Qed.

Lemma lookup_setProperty_own obj key v :
  is_Some (obj !! key) -> setProperty obj key v !! key = Some v.
Proof.
  intros [w E]. unfold setProperty. rewrite E. by rewrite lookup_insert_eq.
Qed.

Lemma lookup_setProperty_ne obj key key' v :
  key <> key' -> setProperty obj key v !! key' = obj !! key'.
Proof.
  intros H. unfold setProperty.
  destruct (obj !! key); [by rewrite lookup_insert_ne|].
  destruct (String.eqb key "__proto__"); [done|]. by rewrite lookup_insert_ne.
Qed.

Lemma setProperty_insert obj key v :
  key <> "__proto__" -> setProperty obj key v = <[key := v]> obj.
Proof.
  intros H. unfold setProperty. apply String.eqb_neq in H. rewrite H.
  by destruct (obj !! key).
Qed.

End PropertyFacts.

(** ** The tokenizer as a replay of its calls *)

Section Tokenizer.

Implicit Types (flags : Flags) (key : string) (value : Scalar).
Implicit Types (argv nonFlags : list string) (ts : list Token).

Lemma lookup_addFlag_eq key value flags :
  inherited key = false ->
  addFlag key value flags !! key = Some (push (flags !! key) value).
Proof.
  intros Hkey. unfold addFlag, push.
  rewrite hasProperty_own, getProperty_own by done.
  destruct (flags !! key) as [[e|l]|]; simpl.
  - by apply lookup_setProperty_eq, not_inherited_proto.
  - by rewrite lookup_insert_eq.
  - by apply lookup_setProperty_eq, not_inherited_proto.
Qed.

Lemma lookup_addFlag_ne key key' value flags :
  key <> key' -> addFlag key value flags !! key' = flags !! key'.
Proof.
  intros Hne. unfold addFlag.
  destruct (hasProperty flags key).
  - destruct (getProperty flags key) as [[e|l]|]; [|by rewrite lookup_insert_ne|done].
    by apply lookup_setProperty_ne.
  - by apply lookup_setProperty_ne.
Qed.

(** induction over an argument vector that may consume two tokens *)
Lemma argv_ind2 (P : list string -> Prop) :
  P [] ->
  (forall arg, P [] -> P [arg]) ->
  (forall arg nextArg rest, P rest -> P (nextArg :: rest) -> P (arg :: nextArg :: rest)) ->
  forall argv, P argv.
Proof.
  intros H0 H1 H2 argv.
  enough (P argv /\ forall arg, P (arg :: argv)) by tauto.
  induction argv as [|a argv [IH1 IH2]]; split; auto.
Qed.

Lemma replay_cluster key st :
  fold_left replay (cluster key) st
  = (fold_left (fun fl char => addFlag char (SBool true) fl) (chars key) st.1, st.2).
Proof.
  unfold cluster. revert st.
  induction (chars key) as [|ch l IH]; intros [fl nf]; simpl; [done|].
  by rewrite IH.
Qed.

Lemma replayed_step arg rest :
  replayed rest ->
  (forall nextArg rest', rest = nextArg :: rest' -> replayed rest') ->
  replayed (arg :: rest).
Proof.
  intros Hrest Hskip flags nonFlags.
  cbn [parseFlags_loop tokenize].
  destruct (negb (truthy arg)); [apply Hrest|].
  destruct (startsWith arg "--").
  - destruct (includes "=" (slice 2 arg)).
    + destruct (split "=" (slice 2 arg)) as [|flagName valueParts]; [apply Hrest|].
      destruct (truthy flagName); [|apply Hrest].
      cbn [fold_left replay fst snd]. apply Hrest.
    + destruct rest as [|nextArg rest']; [apply Hrest|].
      destruct (truthy nextArg && negb (startsWith nextArg "-"));
        cbn [fold_left replay fst snd]; [|apply Hrest].
      by apply (Hskip nextArg rest').
  - destruct (startsWith arg "-" && (1 <? String.length arg)%nat).
    + destruct (String.length (slice 1 arg) =? 1)%nat.
      * destruct rest as [|nextArg rest']; [apply Hrest|].
        destruct (truthy nextArg && negb (startsWith nextArg "-"));
          cbn [fold_left replay fst snd]; [|apply Hrest].
        by apply (Hskip nextArg rest').
      * rewrite fold_left_app, replay_cluster. apply Hrest.
    + cbn [fold_left replay fst snd]. apply Hrest.
Qed.

Lemma parseFlags_loop_tokenize argv : replayed argv.
Proof.
  induction argv as [|arg IH0|arg nextArg rest IHrest IHnext] using argv_ind2.
  - by intros flags nonFlags.
  - apply replayed_step; [done|discriminate].
  - apply replayed_step; [done|].
    by intros ? ? [= -> ->].
Qed.

(** the entry of [key] after a replay depends only on its own occurrences *)
Lemma replay_lookup key ts :
  inherited key = false ->
  forall st,
    (fold_left replay ts st).1 !! key
    = fold_left (fun o v => Some (push o v)) (occurrences key ts) (st.1 !! key).
Proof.
  intros Hkey.
  induction ts as [|[k v|a] ts IH]; intros [fl nf]; simpl; [done| |].
  - rewrite IH. simpl. destruct (decide (k = key)) as [->|Hne]; simpl.
    + by rewrite lookup_addFlag_eq.
    + by rewrite lookup_addFlag_ne.
  - by rewrite IH.
Qed.

Lemma replay_positionals ts :
  forall st, (fold_left replay ts st).2 = (st.2 ++ positionals ts)%list.
Proof.
  induction ts as [|[k v|a] ts IH]; intros [fl nf]; simpl.
  - by rewrite app_nil_r.
  - by rewrite IH.
  - rewrite IH. simpl. by rewrite <- app_assoc.
Qed.

Lemma push_fold_array l values :
  fold_left (fun o v => Some (push o v)) values (Some (VArr l))
  = Some (VArr (l ++ values)).
Proof.
  revert l. induction values as [|v vs IH]; intros l; simpl.
  - by rewrite app_nil_r.
  - rewrite IH. by rewrite <- app_assoc.
Qed.

Lemma push_fold_fresh values :
  fold_left (fun o v => Some (push o v)) values None = accumulated values.
Proof.
  destruct values as [|v1 [|v2 vs]]; simpl; [done..|].
  by rewrite push_fold_array.
Qed.

Lemma parseFlags_loop_lookup argv key :
  inherited key = false ->
  (parseFlags_loop argv ∅ []).1 !! key = accumulated (occurrences key (tokenize argv)).
Proof.
  intros Hkey. rewrite parseFlags_loop_tokenize, replay_lookup by done. simpl.
  rewrite lookup_empty. apply push_fold_fresh.
Qed.

Lemma lookup_addFlag_member key value flags :
  inherited key = true -> key <> "__proto__" ->
  addFlag key value flags !! key
  = Some (push (Some (default (VScalar (SMember key)) (flags !! key))) value).
Proof.
  intros Hkey Hproto. unfold addFlag, hasProperty, getProperty. rewrite Hkey.
  destruct (flags !! key) as [[e|l]|] eqn:E; simpl.
  - by apply lookup_setProperty_eq.
  - by rewrite lookup_insert_eq.
  - by apply lookup_setProperty_eq.
Qed.

Lemma addFlag_proto value flags :
  flags !! "__proto__" = None -> addFlag "__proto__" value flags = flags.
Proof.
  intros E. unfold addFlag, hasProperty, getProperty, setProperty. by rewrite E.
Qed.

Lemma replay_lookup_member key ts :
  inherited key = true -> key <> "__proto__" ->
  forall st l,
    st.1 !! key = Some (VArr l) ->
    (fold_left replay ts st).1 !! key = Some (VArr (l ++ occurrences key ts)).
Proof.
  intros Hkey Hproto.
  induction ts as [|[k v|a] ts IH]; intros [fl nf] l E; simpl in *.
  - by rewrite app_nil_r.
  - destruct (decide (k = key)) as [->|Hne]; simpl.
    + rewrite (IH _ (l ++ [v])%list); [by rewrite <- app_assoc|].
      simpl. rewrite lookup_addFlag_member, E by done. done.
    + apply IH. simpl. by rewrite lookup_addFlag_ne.
  - by apply IH.
Qed.

Lemma replay_lookup_member_fresh key ts :
  inherited key = true -> key <> "__proto__" ->
  forall st,
    st.1 !! key = None ->
    (fold_left replay ts st).1 !! key = accumulatedMember key (occurrences key ts).
Proof.
  intros Hkey Hproto.
  induction ts as [|[k v|a] ts IH]; intros [fl nf] E; simpl in *; [done| |].
  - destruct (decide (k = key)) as [->|Hne]; simpl.
    + rewrite (replay_lookup_member key ts Hkey Hproto _ [SMember key; v]); [done|].
      simpl. rewrite lookup_addFlag_member, E by done. done.
    + apply IH. simpl. by rewrite lookup_addFlag_ne.
  - by apply IH.
Qed.

Lemma replay_lookup_proto ts :
  forall st, st.1 !! "__proto__" = None -> (fold_left replay ts st).1 !! "__proto__" = None.
Proof.
  induction ts as [|[k v|a] ts IH]; intros [fl nf] E; simpl in *; [done| |].
  - apply IH. simpl. destruct (decide (k = "__proto__")) as [->|Hne].
    + by rewrite addFlag_proto.
    + by rewrite lookup_addFlag_ne.
  - by apply IH.
Qed.

Lemma parseFlags_loop_lookup_member argv key :
  inherited key = true -> key <> "__proto__" ->
  (parseFlags_loop argv ∅ []).1 !! key
  = accumulatedMember key (occurrences key (tokenize argv)).
Proof.
  intros Hkey Hproto. rewrite parseFlags_loop_tokenize.
  by apply replay_lookup_member_fresh.
Qed.

Lemma parseFlags_loop_lookup_proto argv :
  (parseFlags_loop argv ∅ []).1 !! "__proto__" = None.
Proof. rewrite parseFlags_loop_tokenize. by apply replay_lookup_proto. Qed.



Lemma parseFlags_loop_positionals argv :
  (parseFlags_loop argv ∅ []).2 = positionals (tokenize argv).
Proof. by rewrite parseFlags_loop_tokenize, replay_positionals. Qed.

Lemma parseFlags_lookup argv key :
  inherited key = false ->
  key <> "_" ->
  parseFlags argv !! key = accumulated (occurrences key (tokenize argv)).
Proof.
  intros Hkey Hne. unfold parseFlags.
  pose proof (parseFlags_loop_lookup argv key Hkey) as H.
  destruct (parseFlags_loop argv ∅ []) as [fl nf]. simpl in H.
  by rewrite lookup_insert_ne.
Qed.

Lemma parseFlags_positionals argv :
  parseFlags argv !! "_" = Some (VArr (SStr <$> positionals (tokenize argv))).
Proof.
  unfold parseFlags.
  pose proof (parseFlags_loop_positionals argv) as H.
  destruct (parseFlags_loop argv ∅ []) as [fl nf]. simpl in H. subst nf.
  by rewrite lookup_insert_eq.
Qed.

End Tokenizer.

(** ** Claims on the tokenizer *)






(** C6, as stated, fails on an empty next token. In [['-a', '']] the token
    after [-a] exists and does not begin with a dash, so the stated rule
    consumes it as the value of [a]; the tokenizer registers [a] as boolean
    [true] instead (and then skips the empty token). *)
Lemma C6_counterexample_empty_next_token :
  spec_consumes_next [""] = true
  /\ parseFlags ["-a"; ""] !! "a" = Some (VScalar (SBool true))
  /\ parseFlags ["-a"; ""] !! "a" <> Some (VScalar (SStr "")).
Proof.
  split; [reflexivity|].
  assert (H : parseFlags ["-a"; ""] !! "a" = Some (VScalar (SBool true)))
    by (vm_compute; reflexivity).
  split; [exact H|]. rewrite H. discriminate.
Qed.

(** C6 (amended). For tokens of the model, whose characters are single
    UTF-16 code units (below 256), so that [arg.length] counts characters
    and [for (const char of key)] yields them one by one: a single-dash
    token of length greater than 2 registers each character after the dash
    as its own boolean-true flag and consumes no following token. A
    single-dash token with a one-character remainder follows the lookahead
    rule of long flags without [=]: the next token is consumed as the value
    iff it exists, is not empty and does not begin with a dash; otherwise
    the flag is boolean true. *)
Theorem C6_short_flags :
  (forall (arg : string) (rest : list string) (flags : Flags) (nonFlags : list string),
      startsWith arg "-" = true ->
      startsWith arg "--" = false ->
      (2 < String.length arg)%nat ->
      parseFlags_loop (arg :: rest) flags nonFlags
      = parseFlags_loop rest
          (fold_left (fun fl char => addFlag char (SBool true) fl)
             (chars (slice 1 arg)) flags)
          nonFlags
      /\ tokenize (arg :: rest)
         = (((fun char => Flag char (SBool true)) <$> chars (slice 1 arg))
            ++ tokenize rest)%list)
  /\ (forall (c : ascii) (rest : list string) (flags : Flags) (nonFlags : list string),
         c <> "-"%char ->
         parseFlags_loop (String "-" (String c "") :: rest) flags nonFlags
         = lookahead (String c "") rest flags nonFlags)
  /\ (forall (k : string) (rest : list string) (flags : Flags) (nonFlags : list string),
         includes "=" k = false ->
         parseFlags_loop (("--" ++ k) :: rest) flags nonFlags
         = lookahead k rest flags nonFlags).
Proof.
  split; [|split].
  - intros arg rest flags nonFlags Hdash Hlong Hlen.
    cbn [parseFlags_loop tokenize]. rewrite Hlong, Hdash.
    destruct arg as [|a [|b [|c s]]]; simpl in Hlen; try lia.
    done.
  - intros c rest flags nonFlags Hc.
    cbn [parseFlags_loop lookahead truthy negb startsWith].
    apply Ascii.eqb_neq in Hc. rewrite Ascii.eqb_refl, Hc.
    cbn. by destruct rest.
  - intros k rest flags nonFlags Hk.
    cbn [parseFlags_loop lookahead].
    change (truthy ("--" ++ k)) with true.
    assert (Hlong : startsWith ("--" ++ k) "--" = true) by apply startsWith_app.
    rewrite Hlong. change (slice 2 ("--" ++ k)) with k. rewrite Hk.
    cbn. by destruct rest.
Qed.

Lemma C6_short_flags_witness :
  parseFlags_loop ["-abc"; "x"] ∅ []
  = parseFlags_loop ["x"]
      (addFlag "c" (SBool true) (addFlag "b" (SBool true) (addFlag "a" (SBool true) ∅))) []
  /\ parseFlags_loop ["-n"; "x"; "y"] ∅ [] = parseFlags_loop ["y"] (addFlag "n" (SStr "x") ∅) []
  /\ parseFlags_loop ["--name"; "-x"] ∅ [] = parseFlags_loop ["-x"] (addFlag "name" (SBool true) ∅) []
  /\ (* [['-é', 'x']]: the letter [é] is the code unit 233 *)
     parseFlags_loop [String "-" (String (ascii_of_nat 233) ""); "x"] ∅ []
     = parseFlags_loop [] (addFlag (String (ascii_of_nat 233) "") (SStr "x") ∅) [].
Proof.
  split; [|split; [|split]].
  - exact (proj1 (proj1 C6_short_flags "-abc" ["x"] ∅ [] eq_refl eq_refl
                    ltac:(simpl; lia))).
  - exact (proj1 (proj2 C6_short_flags) "n"%char ["x"; "y"] ∅ [] ltac:(discriminate)).
  - exact (proj2 (proj2 C6_short_flags) "name" ["-x"] ∅ [] eq_refl).
  - exact (proj1 (proj2 C6_short_flags) (ascii_of_nat 233) ["x"] ∅ []
             ltac:(discriminate)).
Defined.

(** ** Alias resolution *)

Section Aliases.

Implicit Types (r flags : Flags) (l before after : list (string * string)).
Implicit Types (a t x alias target : string).

Lemma resolveAlias_lookup_other r a t x :
  x <> a -> x <> t -> resolveAlias r (a, t) !! x = r !! x.
Proof.
  intros Ha Ht. unfold resolveAlias.
  destruct (hasProperty r a); [|done].
  destruct (getProperty r a) as [v|]; [|done].
  by rewrite lookup_delete_ne, lookup_setProperty_ne.
Qed.

Lemma resolveAlias_absent r a t : hasProperty r a = false -> resolveAlias r (a, t) = r.
Proof. intros H. unfold resolveAlias. by rewrite H. Qed.

Lemma resolveAlias_present r a t v :
  r !! a = Some v -> resolveAlias r (a, t) = delete a (setProperty r t v).
Proof.
  intros H. unfold resolveAlias.
  by rewrite (hasProperty_present r a v H), (getProperty_present r a v H).
Qed.

(** a key that is neither an alias nor a target is never touched *)
Lemma fold_alias_untouched l : forall r x,
  x ∉ l.*1 -> x ∉ l.*2 ->
  fold_left resolveAlias l r !! x = r !! x.
Proof.
  induction l as [|[a t] l IH]; intros r x H1 H2; [done|].
  rewrite !fmap_cons, !not_elem_of_cons in H1, H2. simpl in H1, H2.
  simpl. rewrite IH by tauto.
  apply resolveAlias_lookup_other; tauto.
Qed.

(** a target keeps its entry while none of its aliases is in the record *)
Lemma fold_alias_target_kept t l : forall r,
  t ∉ l.*1 ->
  (forall x, x ∈ l.*2 -> x ∉ l.*1) ->
  (forall a, (a, t) ∈ l -> hasProperty r a = false) ->
  fold_left resolveAlias l r !! t = r !! t.
Proof.
  induction l as [|[a' t'] l IH]; intros r Ht Hdisj Habs; [done|].
  rewrite fmap_cons, not_elem_of_cons in Ht. simpl in Ht. destruct Ht as [Hta Htl].
  assert (Hhead : t' <> a' /\ t' ∉ l.*1).
  { apply not_elem_of_cons. apply (Hdisj t'). rewrite fmap_cons. apply list_elem_of_here. }
  assert (Hdisj' : forall x, x ∈ l.*2 -> x ∉ l.*1).
  { intros x Hx. eapply not_elem_of_cons, (Hdisj x).
    rewrite fmap_cons. by apply list_elem_of_further. }
  assert (Habs' : forall a, (a, t) ∈ l -> hasProperty r a = false).
  { intros a Ha. apply Habs. by apply list_elem_of_further. }
  cbn [fold_left]. destruct (hasProperty r a') eqn:Ea'.
  2:{ rewrite resolveAlias_absent by done. by apply IH. }
  assert (t' <> t).
  { intros ->. rewrite (Habs a') in Ea'; [done|apply list_elem_of_here]. }
  rewrite IH; [|done|done|].
  - by apply resolveAlias_lookup_other.
  - intros a Ha.
    assert (a ∈ l.*1) by (apply list_elem_of_fmap; by exists (a, t)).
    assert (t' <> a) by (intros ->; tauto).
    specialize (Habs' a Ha). apply hasProperty_false in Habs' as [Hown Hinh].
    apply hasProperty_false. split; [|done].
    destruct (decide (a = a')) as [->|Hne].
    + unfold resolveAlias. rewrite Ea'.
      destruct (getProperty r a'); [by rewrite lookup_delete_eq|done].
    + by rewrite resolveAlias_lookup_other.
Qed.


End Aliases.

(** ** Naming-convention resolution *)

Section Kebab.

Implicit Types (r flags : Flags) (keys : list string).

Lemma is_upper_toLowerCase a : is_upper a = true -> is_upper (toLowerCase a) = false.
Proof. destruct a as [[] [] [] [] [] [] [] []]; vm_compute; congruence. Qed.

(** a hyphenated name has no uppercase letter left *)
Lemma camelToKebab_idempotent s : camelToKebab (camelToKebab s) = camelToKebab s.
Proof.
  induction s as [|a s IH]; [done|].
  cbn [camelToKebab]. destruct (is_upper a) eqn:Ea; cbn [camelToKebab].
  - change (is_upper "-") with false. cbn iota.
    by rewrite (is_upper_toLowerCase a Ea), IH.
  - by rewrite Ea, IH.
Qed.

Variable camelKey : string.

Lemma resolveKebabKey_skip r key : hasProperty r key = true -> resolveKebabKey r key = r.
Proof. intros H. unfold resolveKebabKey. by rewrite H. Qed.

Lemma resolveKebabKey_move r key v :
  hasProperty r key = false ->
  r !! camelToKebab key = Some v ->
  resolveKebabKey r key = delete (camelToKebab key) (<[key := v]> r).
Proof.
  intros Hkey Hkebab. unfold resolveKebabKey. rewrite Hkey. cbn [negb].
  rewrite (hasProperty_present r _ v Hkebab), (getProperty_present r _ v Hkebab).
  rewrite setProperty_insert; [done|].
  apply hasProperty_false in Hkey as [_ Hinh]. by apply not_inherited_proto.
Qed.






End Kebab.

(** camelCase field names, which contain no hyphen, are always [apart] *)

Lemma toLowerCase_injective a b :
  is_upper a = true -> is_upper b = true -> toLowerCase a = toLowerCase b -> a = b.
Proof.
  unfold toLowerCase. intros Ha Hb. rewrite Ha, Hb. intros Heq.
  unfold is_upper in Ha, Hb.
  apply andb_true_iff in Ha as [_ Ha%Nat.leb_le], Hb as [_ Hb%Nat.leb_le].
  apply (f_equal nat_of_ascii) in Heq.
  rewrite !nat_ascii_embedding in Heq by lia.
  rewrite <- (ascii_nat_embedding a), <- (ascii_nat_embedding b).
  f_equal. lia.
Qed.

Lemma camelToKebab_no_hyphen s :
  includes "-" (camelToKebab s) = false -> camelToKebab s = s.
Proof.
  induction s as [|a s IH]; [done|].
  cbn [camelToKebab]. destruct (is_upper a); [done|].
  cbn [includes]. destruct (Ascii.eqb a "-"); [done|].
  intros H. by rewrite IH.
Qed.

Lemma camelToKebab_injective s : forall s',
  includes "-" s = false -> includes "-" s' = false ->
  camelToKebab s = camelToKebab s' -> s = s'.
Proof.
  induction s as [|a s IH]; intros [|b s'] Hs Hs' Heq; cbn [camelToKebab] in Heq.
  - done.
  - by destruct (is_upper b).
  - by destruct (is_upper a).
  - cbn [includes] in Hs, Hs'.
    destruct (Ascii.eqb a "-") eqn:Ea; [done|].
    destruct (Ascii.eqb b "-") eqn:Eb; [done|].
    destruct (is_upper a) eqn:Ua, (is_upper b) eqn:Ub.
    + injection Heq as Hl Hk.
      rewrite (toLowerCase_injective a b Ua Ub Hl). f_equal. by apply IH.
    + injection Heq as Hb _. apply Ascii.eqb_neq in Eb. congruence.
    + injection Heq as Ha _. apply Ascii.eqb_neq in Ea. congruence.
    + injection Heq as -> Hk. f_equal. by apply IH.
Qed.

Lemma camelCase_apart camelKey keys :
  includes "-" camelKey = false ->
  Forall (fun key => includes "-" key = false) keys ->
  apart camelKey keys.
Proof.
  intros Hkey Hkeys other Hother Hne.
  rewrite Forall_forall in Hkeys. specialize (Hkeys other Hother). split.
  - intros Heq. by apply Hne, camelToKebab_injective.
  - intros Heq. apply Hne. rewrite <- Heq. symmetry.
    apply camelToKebab_no_hyphen. by rewrite Heq.
Qed.





(** ** Array normalization *)

Section ArrayNormalization.

Implicit Types (r options : Flags) (fields : list (string * ZodType)).

Lemma normalizeArrayField_lookup_ne r k key zodType :
  k <> key -> normalizeArrayField r (k, zodType) !! key = r !! key.
Proof.
  intros Hne. unfold normalizeArrayField.
  destruct (hasProperty r k); [|done].
  destruct (getProperty r k) as [[s|l]|]; [|by rewrite andb_false_r|done].
  destruct (isZodArrayType zodType); [|done]. by apply lookup_setProperty_ne.
Qed.

Lemma normalizeArrayField_lookup_eq r key zodType :
  normalizeArrayField r (key, zodType) !! key
  = wrapField (isZodArrayType zodType) key (r !! key).
Proof.
  unfold normalizeArrayField, wrapField, hasProperty, getProperty.
  destruct (r !! key) as [[s|l]|] eqn:E.
  - destruct (isZodArrayType zodType); [|done].
    apply lookup_setProperty_own. by eexists.
  - by rewrite andb_false_r.
  - destruct (inherited key) eqn:Hinh; [|by rewrite andb_false_r, ?E].
    destruct (isZodArrayType zodType); simpl; [|done].
    destruct (String.eqb key "__proto__") eqn:Hp; simpl.
    + apply String.eqb_eq in Hp. subst key.
      unfold setProperty. by rewrite E.
    + apply String.eqb_neq in Hp. by apply lookup_setProperty_eq.
Qed.

Lemma normalizeArrayField_lookup r k key zodType :
  normalizeArrayField r (k, zodType) !! key
  = wrapField (bool_decide (k = key) && isZodArrayType zodType) key (r !! key).
Proof.
  case_bool_decide as Hk; cbn [andb].
  - subst k. apply normalizeArrayField_lookup_eq.
  - rewrite normalizeArrayField_lookup_ne by done.
    by destruct (r !! key) as [[s|l]|].
Qed.

Lemma wrapField_twice b1 b2 key o :
  wrapField b2 key (wrapField b1 key o) = wrapField (b1 || b2) key o.
Proof.
  unfold wrapField.
  destruct o as [[s|l]|], b1, b2, (inherited key), (String.eqb key "__proto__");
    reflexivity.
Qed.

Lemma wrapField_own b key o : inherited key = false -> wrapField b key o = wrapScalar b o.
Proof.
  intros H. unfold wrapField, wrapScalar. rewrite H.
  destruct o as [[s|l]|]; try done. by rewrite andb_false_r.
Qed.

Lemma normalizeArrayFields_lookup_any fields : forall r key,
  fold_left normalizeArrayField fields r !! key
  = wrapField (declaredArray key fields) key (r !! key).
Proof.
  induction fields as [|[k zodType] fields IH]; intros r key; cbn [fold_left].
  - by destruct (r !! key) as [[s|l]|].
  - by rewrite IH, normalizeArrayField_lookup, wrapField_twice.
Qed.

Lemma normalizeArrayFields_lookup fields r key :
  inherited key = false ->
  fold_left normalizeArrayField fields r !! key
  = wrapScalar (declaredArray key fields) (r !! key).
Proof.
  intros H. by rewrite normalizeArrayFields_lookup_any, wrapField_own.
Qed.

Lemma declaredArray_true key zodType fields :
  (key, zodType) ∈ fields -> isZodArrayType zodType = true ->
  declaredArray key fields = true.
Proof.
  intros Hin Harr. apply existsb_exists. exists (key, zodType).
  split; [by apply list_elem_of_In|]. simpl.
  by rewrite bool_decide_eq_true_2, Harr.
Qed.

Lemma declaredArray_false key fields :
  (forall zodType, (key, zodType) ∈ fields -> isZodArrayType zodType = false) ->
  declaredArray key fields = false.
Proof.
  intros Hnot. apply not_true_is_false. intros Hex.
  apply existsb_exists in Hex as ([k zodType] & Hin & Hb). simpl in Hb.
  apply andb_true_iff in Hb as [Hk Harr]. apply bool_decide_eq_true in Hk. subst k.
  apply list_elem_of_In in Hin. rewrite (Hnot zodType Hin) in Harr. discriminate.
Qed.

End ArrayNormalization.




(** ** The command of a result *)

Lemma processCommandExecution_command command flags argv r :
  processCommandExecution command flags argv = Returned r ->
  result_command r = command.
Proof.
  unfold processCommandExecution.
  destruct (validateOptions flags (options command)) as [e|opts]; [done|].
  destruct (args command) as [argsSchema|]; [|by intros [= <-]].
  destruct (parseArgs argsSchema argv) as [[msg|issues]|v]; try done.
  by intros [= <-].
Qed.

(** ** The positional list *)

Section Positionals.

Implicit Types (argv rest : list string) (ts : list Token).

(** one step of the tokenizer: the calls made for [arg], and where the
    loop goes on, which is [rest] or, when the next token was consumed
    as a value, the tail of [rest] *)
Lemma tokenize_cons arg rest :
  exists ts rest',
    tokenize (arg :: rest) = (ts ++ tokenize rest')%list
    /\ (rest' = rest
        \/ exists nextArg, rest = nextArg :: rest'
                           /\ truthy nextArg = true
                           /\ startsWith nextArg "-" = false)
    /\ Forall (fun a => truthy a = true) (positionals ts).
Proof.
  assert (Hlook : forall key,
             exists ts rest',
               match rest with
               | nextArg :: rest' =>
                   if truthy nextArg && negb (startsWith nextArg "-")
                   then Flag key (SStr nextArg) :: tokenize rest'
                   else Flag key (SBool true) :: tokenize rest
               | [] => Flag key (SBool true) :: tokenize rest
               end = (ts ++ tokenize rest')%list
               /\ (rest' = rest
                   \/ exists nextArg, rest = nextArg :: rest'
                                      /\ truthy nextArg = true
                                      /\ startsWith nextArg "-" = false)
               /\ Forall (fun a => truthy a = true) (positionals ts)).
  { intros key. destruct rest as [|nextArg rest'].
    - exists [Flag key (SBool true)], []. auto.
    - destruct (truthy nextArg && negb (startsWith nextArg "-")) eqn:E.
      + apply andb_true_iff in E as [E1 E2%negb_true_iff].
        exists [Flag key (SStr nextArg)], rest'. split; [done|]. split; [|constructor].
        right. by exists nextArg.
      + exists [Flag key (SBool true)], (nextArg :: rest'). auto. }
  cbn [tokenize].
  destruct (truthy arg) eqn:Harg; cbn [negb]; [|exists [], rest; auto].
  destruct (startsWith arg "--").
  - destruct (includes "=" (slice 2 arg)); [|apply Hlook].
    destruct (split "=" (slice 2 arg)) as [|flagName valueParts];
      [exists [], rest; auto|].
    destruct (truthy flagName); [|exists [], rest; auto].
    exists [Flag flagName (SStr (join "=" valueParts))], rest. auto.
  - destruct (startsWith arg "-" && (1 <? String.length arg)%nat).
    + destruct (String.length (slice 1 arg) =? 1)%nat; [apply Hlook|].
      exists (cluster (slice 1 arg)), rest. split; [done|]. split; [by left|].
      unfold cluster. induction (chars (slice 1 arg)); [constructor|done].
    + exists [Positional arg], rest. split; [done|]. split; [by left|].
      simpl. by constructor.
Qed.

Lemma positionals_app ts ts' :
  positionals (ts ++ ts') = (positionals ts ++ positionals ts')%list.
Proof. unfold positionals. apply omap_app. Qed.

(** an empty token is never pushed on [nonFlags] *)
Lemma positionals_truthy argv :
  Forall (fun a => truthy a = true) (positionals (tokenize argv)).
Proof.
  induction argv as [|arg IH0|arg nextArg rest IHrest IHnext] using argv_ind2.
  - constructor.
  - destruct (tokenize_cons arg []) as (ts & rest' & -> & [->|(n & ? & _)] & Hts);
      [|done].
    rewrite positionals_app. by apply Forall_app.
  - destruct (tokenize_cons arg (nextArg :: rest))
      as (ts & rest' & -> & [->|(n & [= <- <-] & _)] & Hts);
      rewrite positionals_app; by apply Forall_app.
Qed.

Lemma commandArgs_of_parseFlags argv :
  commandArgs_of (parseFlags argv) = positionals (tokenize argv).
Proof.
  unfold commandArgs_of. rewrite parseFlags_positionals.
  induction (positionals (tokenize argv)) as [|a l IH]; [done|].
  cbn [fmap list_fmap omap list_omap] in *. by rewrite IH.
Qed.

Lemma help_is_true_spec (parsedFlags : Flags) :
  help_is_true parsedFlags = true
  <-> parsedFlags !! "help" = Some (VScalar (SBool true)).
Proof.
  unfold help_is_true.
  destruct (parsedFlags !! "help") as [[[[]|s|n|m]|l]|]; split; congruence.
Qed.

End Positionals.

(** ** Command resolution *)




Lemma lookupCommand_cases config commandName :
  match lookupCommand config commandName with
  | Some command =>
      commands config !! commandName = Some command
      \/ (commands config !! commandName = None /\ inherited commandName = true
          /\ command = inheritedMember)
  | None => commands config !! commandName = None /\ inherited commandName = false
  end.
Proof.
  unfold lookupCommand. destruct (commands config !! commandName); [by left|].
  destruct (inherited commandName); [by right|done].
Qed.

Lemma processConfig_resolution config argv :
  processConfig config argv
  = match positionals (tokenize argv) with
    | [] =>
        if help_is_true (parseFlags argv) then ([DisplayHelp], Exited 0)
        else match defaultCommand config with
             | Some dc => ([], processCommandExecution dc (parseFlags argv) [])
             | None => ([DisplayHelp], Threw (Error "No command specified."))
             end
    | commandName :: remainingArgs =>
        match lookupCommand config commandName with
        | None =>
            ([DisplayHelp],
             Threw (Error ("Unknown command: " ++ ESC ++ "[36m" ++ commandName
                           ++ ESC ++ "[0m")))
        | Some command =>
            if help_is_true (parseFlags argv)
            then ([DisplayCommandHelp commandName], Exited 0)
            else ([], processCommandExecution command (parseFlags argv) remainingArgs)
        end
    end.
Proof.
  unfold processConfig. rewrite commandArgs_of_parseFlags.
  pose proof (positionals_truthy argv) as Htruthy.
  destruct (positionals (tokenize argv)) as [|commandName remainingArgs]; [done|].
  apply Forall_cons in Htruthy as [-> _]. done.
Qed.




(** ** Commands without an options definition *)




(** ** Unknown options and validation failures *)

(** every error [processCommandExecution] throws comes from a validator:
    the exception of the options schema as it is, the [ZodError] of the
    positional schema as "Argument validation failed", any other exception
    of the positional schema as it is *)
Lemma processCommandExecution_threw command (flags : Flags) argv e :
  processCommandExecution command flags argv = Threw e ->
  (exists od, options command = Some od
              /\ parse (schema od) (normalizedOptions flags od) = inl e)
  \/ (exists argsSchema, args command = Some argsSchema
      /\ ((exists issues, parseArgs argsSchema argv = inl (ZodError issues)
                          /\ e = Error ("Argument validation failed: "
                                        ++ join ", " (issue_to_string <$> issues)))
          \/ (exists msg, parseArgs argsSchema argv = inl (Error msg) /\ e = Error msg))).
Proof.
  unfold processCommandExecution, validateOptions.
  destruct (options command) as [od|] eqn:Eod.
  - destruct (parse (schema od) (normalizedOptions flags od)) as [e'|opts] eqn:Ep.
    + intros [= <-]. left. by exists od.
    + destruct (args command) as [argsSchema|]; [|done].
      destruct (parseArgs argsSchema argv) as [[msg|issues]|v] eqn:Ea; [| |done];
        intros [= <-]; right; exists argsSchema; (split; [done|]); eauto.
  - destruct (args command) as [argsSchema|]; [|done].
    destruct (parseArgs argsSchema argv) as [[msg|issues]|v] eqn:Ea; [| |done];
      intros [= <-]; right; exists argsSchema; (split; [done|]); eauto.
Qed.

(** a failure of the options schema leaves [processCommandExecution] as the
    validator threw it *)
Lemma options_failure_propagates command od (flags : Flags) argv e :
  options command = Some od ->
  parse (schema od) (normalizedOptions flags od) = inl e ->
  processCommandExecution command flags argv = Threw e.
Proof.
  intros Hod Hparse. unfold processCommandExecution, validateOptions.
  by rewrite Hod, Hparse.
Qed.

(** a [ZodError] of the positional schema is caught and thrown again as a
    plain [Error] listing the issues *)
Lemma args_failure_rewrapped command argsSchema (flags : Flags) argv opts issues :
  validateOptions flags (options command) = inr opts ->
  args command = Some argsSchema ->
  parseArgs argsSchema argv = inl (ZodError issues) ->
  processCommandExecution command flags argv
  = Threw (Error ("Argument validation failed: "
                  ++ join ", " (issue_to_string <$> issues))).
Proof.
  intros Hopts Hargs Hparse. unfold processCommandExecution.
  by rewrite Hopts, Hargs, Hparse.
Qed.

(** C1 (the code does not do this). [['test', '--unknown']] is processed
    without any error: against a command without an options definition the
    result has empty options; against a command whose schema declares only
    [verbose], the undeclared key [unknown] reaches the validator in the
    normalized record and the result holds the validated options. No
    unknown-option error is raised on either. *)
Theorem C1_unknown_option_is_accepted :
  processConfig (configWithTest commandWithoutOptions) ["test"; "--unknown"]
  = ([], Returned {| result_command := commandWithoutOptions;
                     result_options := ∅;
                     result_args := VArr [] |})
  /\ normalizedOptions (parseFlags ["test"; "--unknown"])
       {| schema := z_object [("verbose", ZodDefault ZodBoolean (VScalar (SBool false)))];
          aliases := None |}
     !! "unknown" = Some (VScalar (SBool true))
  /\ processConfig
       (configWithTest
          (commandWithOptions [("verbose", ZodDefault ZodBoolean (VScalar (SBool false)))]))
       ["test"; "--unknown"]
     = ([], Returned
              {| result_command :=
                   commandWithOptions
                     [("verbose", ZodDefault ZodBoolean (VScalar (SBool false)))];
                 result_options := {[ "verbose" := VScalar (SBool false) ]};
                 result_args := VArr [] |}).
Proof. split; [|split]; vm_compute; reflexivity. Qed.

(** C2 (the code does this for positionals only). A failure of the options
    schema is not caught: for a command whose schema requires [name],
    [['test']] makes [processConfig] throw the validator's own [ZodError].
    A failure of the positional schema is caught and thrown again as the
    plain error "Argument validation failed: <path>: <reason>, ...". *)
Theorem C2_options_failure_is_not_rewrapped :
  processConfig (configWithTest (commandWithOptions [("name", ZodString)])) ["test"]
  = ([], Threw (ZodError [{| path := [PKey "name"]; message := "Required" |}]))
  /\ processConfig
       (configWithTest {| description := None; options := None;
                          args := Some (z_tuple_of_strings 2) |})
       ["test"; "hello"]
     = ([], Threw (Error "Argument validation failed: : Invalid tuple length")).
Proof. split; vm_compute; reflexivity. Qed.

(** ** The help short-circuit *)

Section Help.

Implicit Types (argv pre mid post rest : list string) (ts : list Token).

Lemma occurrences_app key ts ts' :
  occurrences key (ts ++ ts') = (occurrences key ts ++ occurrences key ts')%list.
Proof. unfold occurrences. apply omap_app. Qed.

(** a token that begins with a dash is never consumed as a value: the
    tokenizer reaches it as a token of its own *)
Lemma tokenize_aligned pre : forall arg rest,
  startsWith arg "-" = true ->
  exists ts, tokenize (pre ++ arg :: rest) = (ts ++ tokenize (arg :: rest))%list.
Proof.
  induction pre as [|a _|a b pre IHpre IHb] using argv_ind2; intros arg rest Hdash.
  - by exists [].
  - destruct (tokenize_cons a (arg :: rest)) as (ts & rest' & Heq & [->|Hc] & _).
    + by exists ts.
    + destruct Hc as (n & [= <- <-] & _ & Hn). congruence.
  - destruct (tokenize_cons a (b :: pre ++ arg :: rest))
      as (ts & rest' & Heq & [->|Hc] & _).
    + destruct (IHb arg rest Hdash) as [ts' Hts'].
      exists (ts ++ ts')%list.
      change ((b :: pre) ++ arg :: rest)%list with (b :: (pre ++ arg :: rest)) in Hts'.
      change ((a :: b :: pre) ++ arg :: rest)%list with (a :: b :: (pre ++ arg :: rest)).
      by rewrite Heq, Hts', app_assoc.
    + destruct Hc as (n & [= <- <-] & _).
      destruct (IHpre arg rest Hdash) as [ts' Hts'].
      exists (ts ++ ts')%list.
      change ((a :: b :: pre) ++ arg :: rest)%list with (a :: b :: (pre ++ arg :: rest)).
      by rewrite Heq, Hts', app_assoc.
Qed.

Lemma tokenize_long_flag k rest :
  includes "=" k = false ->
  tokenize (("--" ++ k) :: rest)
  = match rest with
    | nextArg :: rest' =>
        if truthy nextArg && negb (startsWith nextArg "-")
        then Flag k (SStr nextArg) :: tokenize rest'
        else Flag k (SBool true) :: tokenize rest
    | [] => Flag k (SBool true) :: tokenize rest
    end.
Proof.
  intros Hk. cbn [tokenize].
  change (truthy ("--" ++ k)) with true.
  assert (Hlong : startsWith ("--" ++ k) "--" = true) by apply startsWith_app.
  rewrite Hlong. change (slice 2 ("--" ++ k)) with k. by rewrite Hk.
Qed.

Lemma tokenize_help rest :
  exists value rest',
    tokenize ("--help" :: rest) = Flag "help" value :: tokenize rest'
    /\ (rest' = rest
        \/ exists nextArg, rest = nextArg :: rest' /\ startsWith nextArg "-" = false).
Proof.
  pose proof (tokenize_long_flag "help" rest eq_refl) as H.
  change ("--" ++ "help") with "--help" in H. rewrite H.
  destruct rest as [|nextArg rest'].
  - exists (SBool true), []. auto.
  - destruct (truthy nextArg && negb (startsWith nextArg "-")) eqn:E.
    + apply andb_true_iff in E as [_ E%negb_true_iff].
      exists (SStr nextArg), rest'. eauto.
    + exists (SBool true), (nextArg :: rest'). auto.
Qed.

Lemma tokenize_help_value nextArg rest :
  truthy nextArg = true -> startsWith nextArg "-" = false ->
  tokenize ("--help" :: nextArg :: rest) = Flag "help" (SStr nextArg) :: tokenize rest.
Proof.
  intros Ht Hd.
  pose proof (tokenize_long_flag "help" (nextArg :: rest) eq_refl) as H.
  change ("--" ++ "help") with "--help" in H. by rewrite H, Ht, Hd.
Qed.

Lemma help_with_value_not_true argv :
  help_with_value argv -> occurrences "help" (tokenize argv) <> [SBool true].
Proof.
  intros (pre & nextArg & post & -> & Ht & Hd).
  destruct (tokenize_aligned pre "--help" (nextArg :: post) eq_refl) as [ts ->].
  rewrite tokenize_help_value, occurrences_app by done. simpl.
  destruct (occurrences "help" ts) as [|x [|y l]]; discriminate.
Qed.

Lemma help_repeated_not_true argv :
  help_repeated argv -> occurrences "help" (tokenize argv) <> [SBool true].
Proof.
  intros (pre & mid & post & ->).
  destruct (tokenize_aligned pre "--help" (mid ++ "--help" :: post) eq_refl) as [ts1 ->].
  destruct (tokenize_help (mid ++ "--help" :: post)) as (v & rest' & -> & Hrest').
  assert (Hmid : exists mid', rest' = (mid' ++ "--help" :: post)%list).
  { destruct Hrest' as [->|(n & Hn & Hdash)]; [by exists mid|].
    destruct mid as [|m mid'].
    - (* the next token is [--help] itself, which is not consumed *)
      injection Hn as <- _. discriminate.
    - exists mid'. by injection Hn as _ <-. }
  destruct Hmid as [mid' ->].
  destruct (tokenize_aligned mid' "--help" post eq_refl) as [ts2 ->].
  destruct (tokenize_help post) as (v' & rest'' & -> & _).
  intros Heq. apply (f_equal length) in Heq.
  rewrite occurrences_app in Heq. simpl in Heq.
  rewrite occurrences_app in Heq. simpl in Heq.
  rewrite !length_app in Heq. simpl in Heq. rewrite length_app in Heq. simpl in Heq. lia.
Qed.

Lemma accumulated_true values :
  accumulated values = Some (VScalar (SBool true)) <-> values = [SBool true].
Proof.
  destruct values as [|v1 [|v2 l]]; simpl; split; try congruence.
Qed.

Lemma processCommandExecution_not_exited command (flags : Flags) argv code :
  processCommandExecution command flags argv <> Exited code.
Proof.
  unfold processCommandExecution.
  destruct (validateOptions flags (options command)); [done|].
  destruct (args command) as [a|]; [|done].
  by destruct (parseArgs a argv) as [[|]|].
Qed.

End Help.

(** C10, as stated, fails on an empty token after [--help]. In
    [['--help', '']] the flag is followed by a token that does not begin
    with a dash, yet the tokenizer does not consume it: [help] is boolean
    [true] and the help path is taken. *)
Lemma C10_counterexample_empty_token_after_help :
  let config := configWithTest commandWithoutOptions in
  let argv := ["--help"; ""] in
  startsWith "" "-" = false
  /\ parseFlags argv !! "help" = Some (VScalar (SBool true))
  /\ processConfig config argv = ([DisplayHelp], Exited 0)
  /\ processConfig config argv <> processWithoutHelp config argv.
Proof.
  cbv zeta.
  assert (H : processConfig (configWithTest commandWithoutOptions) ["--help"; ""]
              = ([DisplayHelp], Exited 0)) by (vm_compute; reflexivity).
  assert (H' : processWithoutHelp (configWithTest commandWithoutOptions) ["--help"; ""]
               = ([DisplayHelp], Threw (Error "No command specified.")))
    by (vm_compute; reflexivity).
  rewrite H, H'. split; [reflexivity|]. split; [vm_compute; reflexivity|].
  split; [reflexivity|discriminate].
Qed.

(** C10 (amended). Processing terminates through the help short-circuit
    only when the [help] entry of the flag record is exactly the boolean
    [true] (and then with status 0, after rendering top-level or command
    help). If [--help] is followed by a non-empty token that does not
    begin with a dash, which the tokenizer consumes as its string value, or
    if [--help] is given more than once, the entry is not [true], the help
    path is not taken and processing continues as if help had not been
    requested. *)
Theorem C10_help_short_circuit :
  (forall (config : DefineConfig) (argv : list string) rendered code,
      processConfig config argv = (rendered, Exited code) ->
      parseFlags argv !! "help" = Some (VScalar (SBool true))
      /\ code = 0%Z
      /\ (rendered = [DisplayHelp]
          \/ exists commandName, rendered = [DisplayCommandHelp commandName]))
  /\ (forall (config : DefineConfig) (argv : list string),
         help_with_value argv \/ help_repeated argv ->
         parseFlags argv !! "help" <> Some (VScalar (SBool true))
         /\ processConfig config argv = processWithoutHelp config argv).
Proof.
  split.
  - intros config argv rendered code. rewrite processConfig_resolution.
    destruct (positionals (tokenize argv)) as [|commandName remainingArgs].
    + destruct (help_is_true (parseFlags argv)) eqn:Hhelp.
      * intros [= <- <-]. apply help_is_true_spec in Hhelp. auto.
      * destruct (defaultCommand config); [|done].
        intros [= _ H]. by apply processCommandExecution_not_exited in H.
    + destruct (lookupCommand config commandName); [|done].
      destruct (help_is_true (parseFlags argv)) eqn:Hhelp.
      * intros [= <- <-]. apply help_is_true_spec in Hhelp. eauto.
      * intros [= _ H]. by apply processCommandExecution_not_exited in H.
  - intros config argv Hargv.
    assert (Hnot : parseFlags argv !! "help" <> Some (VScalar (SBool true))).
    { rewrite parseFlags_lookup by done. rewrite accumulated_true.
      destruct Hargv; [by apply help_with_value_not_true
                      |by apply help_repeated_not_true]. }
    split; [done|].
    rewrite processConfig_resolution. unfold processWithoutHelp.
    destruct (help_is_true (parseFlags argv)) eqn:Hhelp; [|done].
    by apply help_is_true_spec in Hhelp.
Qed.

Lemma C10_help_short_circuit_witness :
  processConfig (configWithTest commandWithoutOptions) ["--help"; "test"]
  = processWithoutHelp (configWithTest commandWithoutOptions) ["--help"; "test"]
  /\ processConfig (configWithTest commandWithoutOptions) ["test"; "--help"; "--help"]
     = processWithoutHelp (configWithTest commandWithoutOptions)
         ["test"; "--help"; "--help"]
  /\ parseFlags ["--help"] !! "help" = Some (VScalar (SBool true)).
Proof.
  split; [|split].
  - refine (proj2 (proj2 C10_help_short_circuit
                     (configWithTest commandWithoutOptions) ["--help"; "test"] _)).
    left. exists [], "test", []. by repeat split.
  - refine (proj2 (proj2 C10_help_short_circuit
                     (configWithTest commandWithoutOptions)
                     ["test"; "--help"; "--help"] _)).
    right. by exists ["test"], [], [].
  - refine (proj1 (proj1 C10_help_short_circuit
                     (configWithTest commandWithoutOptions) ["--help"]
                     [DisplayHelp] 0%Z _)).
    vm_compute. reflexivity.
Defined.

(** * Further properties of the pipeline *)

(** ** The tokenizer: positionals and stored values *)

Section TokenizerFacts.

Implicit Types (argv rest : list string) (ts : list Token).

Lemma startsWith_long_short arg : startsWith arg "--" = true -> startsWith arg "-" = true.
Proof.
  destruct arg as [|a arg]; [done|]. cbn [startsWith].
  by destruct (Ascii.eqb a "-").
Qed.

Lemma lone_dash arg :
  startsWith arg "-" = true -> (1 <? String.length arg)%nat = false -> arg = "-".
Proof.
  destruct arg as [|a [|b arg]]; try done.
  cbn [startsWith]. destruct (Ascii.eqb a "-") eqn:E; [|done].
  apply Ascii.eqb_eq in E. by subst a.
Qed.

(** what one step of the tokenizer emits: either the token itself as a
    positional, which is then neither empty nor a flag, or flags only,
    whose values are the boolean [true] or a string *)
Lemma tokenize_cons_tokens arg rest :
  exists ts rest',
    tokenize (arg :: rest) = (ts ++ tokenize rest')%list
    /\ ((rest' = rest /\ ts = [Positional arg] /\ arg <> ""
         /\ (startsWith arg "-" = false \/ arg = "-"))
        \/ ((rest' = rest \/ exists nextArg, rest = nextArg :: rest')
            /\ positionals ts = []
            /\ Forall (fun t => forall k v, t = Flag k v -> flagValue v) ts)).
Proof.
  assert (Hflag : forall k v, flagValue v ->
             Forall (fun t => forall k' v', t = Flag k' v' -> flagValue v') [Flag k v]).
  { intros k v Hv. constructor; [|constructor]. by intros k' v' [= _ <-]. }
  assert (Htrue : flagValue (SBool true)) by by left.
  assert (Hstr : forall s, flagValue (SStr s)) by (intros s; right; by exists s).
  assert (Hlook : forall key,
             exists ts rest',
               match rest with
               | nextArg :: rest' =>
                   if truthy nextArg && negb (startsWith nextArg "-")
                   then Flag key (SStr nextArg) :: tokenize rest'
                   else Flag key (SBool true) :: tokenize rest
               | [] => Flag key (SBool true) :: tokenize rest
               end = (ts ++ tokenize rest')%list
               /\ ((rest' = rest /\ ts = [Positional arg] /\ arg <> ""
                    /\ (startsWith arg "-" = false \/ arg = "-"))
                   \/ ((rest' = rest \/ exists nextArg, rest = nextArg :: rest')
                       /\ positionals ts = []
                       /\ Forall (fun t => forall k v, t = Flag k v -> flagValue v) ts))).
  { intros key. destruct rest as [|nextArg rest'].
    - exists [Flag key (SBool true)], []. split; [done|]. right. auto.
    - destruct (truthy nextArg && negb (startsWith nextArg "-")).
      + exists [Flag key (SStr nextArg)], rest'. split; [done|]. right.
        split; [right; by exists nextArg|]. auto.
      + exists [Flag key (SBool true)], (nextArg :: rest'). split; [done|]. right. auto. }
  assert (Hnone : exists ts rest',
             tokenize rest = (ts ++ tokenize rest')%list
             /\ ((rest' = rest /\ ts = [Positional arg] /\ arg <> ""
                  /\ (startsWith arg "-" = false \/ arg = "-"))
                 \/ ((rest' = rest \/ exists nextArg, rest = nextArg :: rest')
                     /\ positionals ts = []
                     /\ Forall (fun t => forall k v, t = Flag k v -> flagValue v) ts))).
  { exists [], rest. split; [done|]. right. auto. }
  cbn [tokenize].
  destruct (truthy arg) eqn:Harg; cbn [negb]; [|done].
  destruct (startsWith arg "--") eqn:Hlong.
  - destruct (includes "=" (slice 2 arg)); [|apply Hlook].
    destruct (split "=" (slice 2 arg)) as [|flagName valueParts]; [done|].
    destruct (truthy flagName); [|done].
    exists [Flag flagName (SStr (join "=" valueParts))], rest.
    split; [done|]. right. auto.
  - destruct (startsWith arg "-") eqn:Hdash; cbn [andb].
    + destruct (1 <? String.length arg)%nat eqn:Hlen.
      * destruct (String.length (slice 1 arg) =? 1)%nat; [apply Hlook|].
        exists (cluster (slice 1 arg)), rest. split; [done|]. right.
        split; [by left|]. unfold cluster.
        induction (chars (slice 1 arg)) as [|ch l [IH1 IH2]]; [by split|].
        split; [done|]. constructor; [|done]. by intros k v [= _ <-].
      * exists [Positional arg], rest. split; [done|]. left.
        repeat split; [by apply truthy_true|]. right. by apply lone_dash.
    + exists [Positional arg], rest. split; [done|]. left.
      repeat split; [by apply truthy_true|]. by left.
Qed.

Lemma positionals_cases arg rest :
  (positionals (tokenize (arg :: rest)) = arg :: positionals (tokenize rest)
   /\ arg <> "" /\ (startsWith arg "-" = false \/ arg = "-"))
  \/ positionals (tokenize (arg :: rest)) = positionals (tokenize rest)
  \/ exists nextArg rest',
       rest = nextArg :: rest'
       /\ positionals (tokenize (arg :: rest)) = positionals (tokenize rest').
Proof.
  destruct (tokenize_cons_tokens arg rest) as (ts & rest' & -> & H).
  rewrite positionals_app.
  destruct H as [(-> & -> & Hne & Hdash)|(Hrest & -> & _)].
  - left. by repeat split.
  - right. destruct Hrest as [->|(nextArg & ->)]; [by left|].
    right. by exists nextArg, rest'.
Qed.

Lemma positionals_sublist argv : positionals (tokenize argv) `sublist_of` argv.
Proof.
  induction argv as [|arg _|arg nextArg rest IHrest IHnext] using argv_ind2.
  - constructor.
  - destruct (positionals_cases arg []) as [(-> & _)|[->|(n & r & Hn & _)]];
      [by repeat constructor|by repeat constructor|done].
  - destruct (positionals_cases arg (nextArg :: rest))
      as [(-> & _)|[->|(n & r & [= <- <-] & ->)]].
    + by constructor.
    + by constructor.
    + by do 2 constructor.
Qed.

Lemma positionals_not_flags argv :
  Forall (fun a => a <> "" /\ (startsWith a "-" = false \/ a = "-"))
    (positionals (tokenize argv)).
Proof.
  induction argv as [|arg _|arg nextArg rest IHrest IHnext] using argv_ind2.
  - constructor.
  - destruct (positionals_cases arg []) as [(-> & H)|[->|(n & r & Hn & _)]];
      [|by apply Forall_nil|done].
    apply Forall_cons. split; [done|by apply Forall_nil].
  - destruct (positionals_cases arg (nextArg :: rest))
      as [(-> & H)|[->|(n & r & [= <- <-] & ->)]]; [by apply Forall_cons|done..].
Qed.

(** stored values *)
Lemma tokenize_values argv :
  Forall (fun t => forall k v, t = Flag k v -> flagValue v) (tokenize argv).
Proof.
  induction argv as [|arg _|arg nextArg rest IHrest IHnext] using argv_ind2.
  - constructor.
  - destruct (tokenize_cons_tokens arg []) as (ts & rest' & -> & H).
    apply Forall_app.
    destruct H as [(-> & -> & _)|([->|(n & Hn)] & _ & Hts)]; [|done..].
    split; [|constructor]. by repeat constructor.
  - destruct (tokenize_cons_tokens arg (nextArg :: rest)) as (ts & rest' & -> & H).
    apply Forall_app.
    destruct H as [(-> & -> & _)|([->|(n & [= <- <-])] & _ & Hts)]; [|done..].
    split; [|done]. by repeat constructor.
Qed.

Lemma occurrences_values key ts :
  Forall (fun t => forall k v, t = Flag k v -> flagValue v) ts ->
  Forall flagValue (occurrences key ts).
Proof.
  induction 1 as [|[k v|a] ts Ht _ IH]; simpl; [constructor| |done].
  destruct (decide (k = key)); [|done]. constructor; [by eapply Ht|done].
Qed.

End TokenizerFacts.

(** X1. The positional list keeps the order of the argument vector, and a
    token pushed on it is never empty and never begins with a dash, the
    lone [-] apart. *)
Theorem X1_positionals_in_order_and_not_flags :
  forall argv : list string,
    (parseFlags_loop argv ∅ []).2 `sublist_of` argv
    /\ Forall (fun a => a <> "" /\ (startsWith a "-" = false \/ a = "-"))
         (parseFlags_loop argv ∅ []).2.
Proof.
  intros argv. rewrite parseFlags_loop_positionals.
  split; [apply positionals_sublist|apply positionals_not_flags].
Qed.

(** X2. An argument vector in which no token begins with a dash registers
    no flag at all, and its positional list is the vector without its empty
    strings. *)
Theorem X2_no_dash_no_flags :
  forall argv : list string,
    Forall (fun a => startsWith a "-" = false) argv ->
    parseFlags_loop argv ∅ [] = (∅, List.filter truthy argv).
Proof.
  intros argv Hargv.
  enough (H : forall (flags : Flags) nonFlags,
             parseFlags_loop argv flags nonFlags
             = (flags, (nonFlags ++ List.filter truthy argv)%list)) by apply H.
  induction Hargv as [|arg rest Harg _ IH]; intros flags nonFlags.
  - simpl. by rewrite app_nil_r.
  - cbn [parseFlags_loop List.filter].
    destruct (truthy arg); cbn [negb]; [|apply IH].
    destruct (startsWith arg "--") eqn:Hlong.
    { apply startsWith_long_short in Hlong. congruence. }
    rewrite Harg. cbn [andb]. rewrite IH. by rewrite <- app_assoc.
Qed.

Lemma X2_no_dash_no_flags_witness :
  parseFlags_loop ["build"; ""; "a=b"] ∅ [] = (∅, ["build"; "a=b"]).
Proof.
  exact (X2_no_dash_no_flags ["build"; ""; "a=b"]
           ltac:(repeat constructor)).
Defined.

(** X3. In an argument vector in which [__proto__] is not a flag key, the
    flag record never holds [false], a number, an empty or a one-element
    sequence under a key that does not name a member of [Object.prototype]:
    every value stored there is the boolean [true], a string, or a sequence
    of at least two such values. Under the name of a member of
    [Object.prototype] it holds the sequence of that member followed by at
    least one such value. *)
Theorem X3_stored_values :
  forall (argv : list string) (key : string) (v : Value),
    occurrences "__proto__" (tokenize argv) = [] ->
    (parseFlags_loop argv ∅ []).1 !! key = Some v ->
    if inherited key
    then exists values,
        v = VArr (SMember key :: values) /\ values <> [] /\ Forall flagValue values
    else storedValue v.
Proof.
  intros argv key v Hproto.
  pose proof (occurrences_values key _ (tokenize_values argv)) as Hocc.
  destruct (inherited key) eqn:Hkey.
  - destruct (decide (key = "__proto__")) as [->|Hne].
    + by rewrite parseFlags_loop_lookup_proto.
    + rewrite parseFlags_loop_lookup_member by done.
      destruct (occurrences key (tokenize argv)) as [|v1 l]; simpl; [done|].
      intros [= <-]. by exists (v1 :: l).
  - rewrite parseFlags_loop_lookup by done.
    destruct (occurrences key (tokenize argv)) as [|v1 [|v2 l]]; simpl; [done| |].
    + intros [= <-]. by apply Forall_cons in Hocc as [? _].
    + intros [= <-]. split; [simpl; lia|done].
Qed.

Lemma X3_stored_values_witness :
  storedValue (VArr [SStr "a"; SBool true])
  /\ exists values,
      VArr [SMember "toString"; SBool true] = VArr (SMember "toString" :: values)
      /\ values <> [] /\ Forall flagValue values.
Proof.
  split.
  - exact (X3_stored_values ["--f"; "a"; "--f"] "f" (VArr [SStr "a"; SBool true])
             eq_refl eq_refl).
  - exact (X3_stored_values ["--toString"] "toString"
             (VArr [SMember "toString"; SBool true]) eq_refl eq_refl).
Defined.

(** X4. The positional list survives the trip through the returned object:
    what [processConfig] reads back from the key [_] is exactly the list the
    loop collected, also when a flag named [_] was given, whose value is
    overwritten. *)
Theorem X4_positional_carrier_round_trip :
  forall argv : list string,
    commandArgs_of (parseFlags argv) = (parseFlags_loop argv ∅ []).2.
Proof.
  intros argv. by rewrite commandArgs_of_parseFlags, parseFlags_loop_positionals.
Qed.

(** ** Aliases: what is left alone and what never survives *)

Section AliasFacts.

Implicit Types (r flags : Flags) (l : list (string * string)).

Lemma fold_alias_absent_stays l : forall r a,
  a ∉ l.*2 -> r !! a = None -> fold_left resolveAlias l r !! a = None.
Proof.
  induction l as [|[a' t'] l IH]; intros r a Ht Hnone; [done|].
  rewrite fmap_cons, not_elem_of_cons in Ht. simpl in Ht. destruct Ht as [Hne Ht].
  cbn [fold_left]. apply IH; [done|].
  unfold resolveAlias.
  destruct (hasProperty r a'); [|done].
  destruct (getProperty r a') as [v|]; [|done].
  rewrite lookup_delete. case_decide; [done|]. by rewrite lookup_setProperty_ne.
Qed.

Lemma fold_alias_consumed l : forall r a,
  a ∈ l.*1 -> a ∉ l.*2 -> fold_left resolveAlias l r !! a = None.
Proof.
  induction l as [|[a' t'] l IH]; intros r a Hin Ht.
  - by apply elem_of_nil in Hin.
  - rewrite fmap_cons in Hin. rewrite fmap_cons, not_elem_of_cons in Ht.
    simpl in Hin, Ht. destruct Ht as [Hne Ht].
    destruct (decide (a = a')) as [->|Hna].
    2:{ apply elem_of_cons in Hin as [->|Hin]; [done|]. by apply IH. }
    cbn [fold_left].
    destruct (r !! a') as [v|] eqn:E.
    + apply fold_alias_absent_stays; [done|].
      rewrite (resolveAlias_present r a' t' v E). by rewrite lookup_delete_eq.
    + destruct (inherited a') eqn:Hinh.
      * (* the alias is found through the prototype: nothing to delete *)
        apply fold_alias_absent_stays; [done|].
        unfold resolveAlias, hasProperty, getProperty. rewrite E, Hinh.
        by rewrite lookup_delete_eq.
      * apply fold_alias_absent_stays; [done|].
        rewrite resolveAlias_absent; [done|]. by apply hasProperty_false.
Qed.

End AliasFacts.

Lemma resolveAliases_other_keys (flags : Flags) aliases key :
  (forall entries, aliases = Some entries -> (key ∉ entries.*1) /\ (key ∉ entries.*2)) ->
  resolveAliases flags aliases !! key = flags !! key.
Proof.
  destruct aliases as [entries|]; intros H; [|done].
  destruct (H entries eq_refl) as [H1 H2]. by apply fold_alias_untouched.
Qed.

(** X5. [resolveAliases] leaves every key alone that is neither an alias
    nor a target of the alias map; without an alias map it returns the
    flags as they are. *)
Theorem X5_aliases_leave_other_keys :
  forall (flags : Flags) (aliases : option (list (string * string))) (key : string),
    (forall entries, aliases = Some entries -> (key ∉ entries.*1) /\ (key ∉ entries.*2)) ->
    resolveAliases flags aliases !! key = flags !! key.
Proof.
  intros flags [entries|] key H; [|done].
  destruct (H entries eq_refl) as [H1 H2]. by apply fold_alias_untouched.
Qed.

Lemma X5_aliases_leave_other_keys_witness :
  resolveAliases (<["name" := VScalar (SStr "x")]> (<["v" := VScalar (SBool true)]> ∅))
    (Some [("v", "verbose")]) !! "name"
  = Some (VScalar (SStr "x")).
Proof.
  refine (X5_aliases_leave_other_keys
            (<["name" := VScalar (SStr "x")]> (<["v" := VScalar (SBool true)]> ∅))
            (Some [("v", "verbose")]) "name" _).
  intros entries [= <-]. simpl.
  split; intros H%list_elem_of_singleton; discriminate.
Defined.

(** X6. After alias resolution no alias key is left in the record, as long
    as the alias is not also the target of some entry: whether its value
    was moved or it was absent, the key is gone. *)
Theorem X6_alias_keys_are_consumed :
  forall (flags : Flags) (entries : list (string * string)) (alias : string),
    alias ∈ entries.*1 ->
    alias ∉ entries.*2 ->
    resolveAliases flags (Some entries) !! alias = None.
Proof. intros flags entries alias. apply fold_alias_consumed. Qed.

Lemma X6_alias_keys_are_consumed_witness :
  resolveAliases (<["v" := VScalar (SBool true)]> ∅)
    (Some [("v", "verbose"); ("n", "name")]) !! "v" = None.
Proof.
  refine (X6_alias_keys_are_consumed (<["v" := VScalar (SBool true)]> ∅)
            [("v", "verbose"); ("n", "name")] "v" _ _).
  - simpl. apply list_elem_of_here.
  - simpl. intros H. apply elem_of_cons in H as [H|H%list_elem_of_singleton];
      discriminate.
Defined.

(** X7. An option given under its canonical name is kept as it is when
    none of its aliases is given: if no alias of [target] is in the record
    (neither as an own key nor as the name of a member of
    [Object.prototype]), no target of the map is itself an alias, and
    [__proto__] is not a target, the entry of [target] is unchanged. *)
Theorem X7_absent_alias_keeps_target :
  forall (flags : Flags) (entries : list (string * string)) (target : string),
    target ∉ entries.*1 ->
    (forall x, x ∈ entries.*2 -> x ∉ entries.*1) ->
    "__proto__" ∉ entries.*2 ->
    (forall alias, (alias, target) ∈ entries -> hasProperty flags alias = false) ->
    resolveAliases flags (Some entries) !! target = flags !! target.
Proof.
  intros flags entries target Htarget Hdisj _ Habsent.
  by apply fold_alias_target_kept.
Qed.

Lemma X7_absent_alias_keeps_target_witness :
  resolveAliases (<["verbose" := VScalar (SBool true)]> ∅)
    (Some [("v", "verbose")]) !! "verbose"
  = Some (VScalar (SBool true)).
Proof.
  refine (X7_absent_alias_keeps_target (<["verbose" := VScalar (SBool true)]> ∅)
            [("v", "verbose")] "verbose" _ _ _ _).
  - simpl. intros H%list_elem_of_singleton. discriminate.
  - simpl. intros x ->%list_elem_of_singleton H%list_elem_of_singleton. discriminate.
  - simpl. intros H%list_elem_of_singleton. discriminate.
  - intros alias H%list_elem_of_singleton. by injection H as ->.
Defined.

(** ** Hyphenation and naming-convention resolution *)

Section KebabFacts.

Implicit Types (r flags : Flags) (keys : list string).

Lemma hasUpper_camelToKebab s : hasUpper (camelToKebab s) = false.
Proof.
  induction s as [|a s IH]; [done|].
  cbn [camelToKebab]. destruct (is_upper a) eqn:Ea; cbn [hasUpper].
  - change (is_upper "-") with false.
    by rewrite (is_upper_toLowerCase a Ea), IH.
  - by rewrite Ea, IH.
Qed.

Lemma camelToKebab_fixed s : camelToKebab s = s <-> hasUpper s = false.
Proof.
  split.
  - intros <-. apply hasUpper_camelToKebab.
  - induction s as [|a s IH]; [done|]. cbn [hasUpper camelToKebab].
    destruct (is_upper a); [done|]. simpl. intros H. by rewrite IH.
Qed.

Lemma inherited_no_hyphen key : inherited key = true -> includes "-" key = false.
Proof.
  intros H%inherited_elem_of. unfold objectPrototypeKeys in H.
  repeat (apply elem_of_cons in H as [->|H]; [reflexivity|]).
  by apply elem_of_nil in H.
Qed.

(** the hyphenated variant of a key that is not in the record is found,
    if at all, as an own key *)
Lemma resolveKebabKey_unfold r camelKey :
  resolveKebabKey r camelKey
  = if hasProperty r camelKey then r
    else match r !! camelToKebab camelKey with
         | Some v => delete (camelToKebab camelKey) (<[camelKey := v]> r)
         | None => r
         end.
Proof.
  destruct (hasProperty r camelKey) eqn:Hc; [by apply resolveKebabKey_skip|].
  destruct (r !! camelToKebab camelKey) as [v|] eqn:Ek;
    [by apply resolveKebabKey_move|].
  unfold resolveKebabKey. rewrite Hc. cbn [negb].
  destruct (hasProperty r (camelToKebab camelKey)) eqn:Hk; [|done].
  unfold hasProperty in Hk. rewrite Ek in Hk.
  rewrite (camelToKebab_no_hyphen camelKey (inherited_no_hyphen _ Hk)) in Hk.
  apply hasProperty_false in Hc as [_ Hc]. congruence.
Qed.

Lemma resolveKebabKey_untouched r camelKey key :
  key <> camelKey -> key <> camelToKebab camelKey ->
  resolveKebabKey r camelKey !! key = r !! key.
Proof.
  intros H1 H2. rewrite resolveKebabKey_unfold.
  destruct (hasProperty r camelKey); [done|].
  destruct (r !! camelToKebab camelKey); [|done].
  by rewrite lookup_delete_ne, lookup_insert_ne.
Qed.

Lemma fold_kebab_untouched keys : forall r key,
  Forall (fun camelKey => key <> camelKey /\ key <> camelToKebab camelKey) keys ->
  fold_left resolveKebabKey keys r !! key = r !! key.
Proof.
  induction keys as [|c keys IH]; intros r key Hkeys; [done|].
  apply Forall_cons in Hkeys as [[H1 H2] Hkeys].
  cbn [fold_left]. rewrite IH by done. by apply resolveKebabKey_untouched.
Qed.

Lemma resolveKebabKey_size r camelKey :
  size (resolveKebabKey r camelKey) = size r.
Proof.
  rewrite resolveKebabKey_unfold.
  destruct (hasProperty r camelKey) eqn:Ec; [done|].
  destruct (r !! camelToKebab camelKey) as [v|] eqn:Ek; [|done].
  apply hasProperty_false in Ec as [Ec _].
  assert (camelToKebab camelKey <> camelKey) by congruence.
  rewrite map_size_delete_Some by (rewrite lookup_insert_ne by done; by eexists).
  by rewrite map_size_insert_None.
Qed.

Lemma resolveKebabKey_settles r camelKey :
  settled (resolveKebabKey r camelKey) camelKey.
Proof.
  unfold settled. rewrite resolveKebabKey_unfold.
  destruct (hasProperty r camelKey) eqn:Ec; [by left|].
  destruct (r !! camelToKebab camelKey) as [v|] eqn:Ek; [|by right].
  left. apply hasProperty_false in Ec as [Ec _].
  assert (camelToKebab camelKey <> camelKey) by congruence.
  apply (hasProperty_present _ _ v). by rewrite lookup_delete_ne, lookup_insert_eq.
Qed.

Lemma resolveKebabKey_keeps_settled r camelKey d :
  settled r d -> settled (resolveKebabKey r camelKey) d.
Proof.
  rewrite resolveKebabKey_unfold.
  destruct (hasProperty r camelKey) eqn:Ec; [done|].
  destruct (r !! camelToKebab camelKey) as [v|] eqn:Ek; [|done].
  intros [Hd|Hd]; unfold settled.
  - destruct (decide (d = camelToKebab camelKey)) as [->|Hne].
    + right. by rewrite camelToKebab_idempotent, lookup_delete_eq.
    + left. unfold hasProperty in *. rewrite lookup_delete_ne by done.
      destruct (decide (camelKey = d)) as [->|];
        [by rewrite lookup_insert_eq|by rewrite lookup_insert_ne].
  - right. rewrite lookup_delete. case_decide; [done|].
    rewrite lookup_insert_ne; [done|].
    intros ->. rewrite camelToKebab_idempotent in Ek. congruence.
Qed.

Lemma fold_kebab_keeps_settled keys : forall r d,
  settled r d -> settled (fold_left resolveKebabKey keys r) d.
Proof.
  induction keys as [|c keys IH]; intros r d Hd; [done|].
  cbn [fold_left]. by apply IH, resolveKebabKey_keeps_settled.
Qed.

Lemma fold_kebab_settles keys : forall r,
  Forall (settled (fold_left resolveKebabKey keys r)) keys.
Proof.
  induction keys as [|c keys IH]; intros r; [constructor|].
  cbn [fold_left]. constructor; [|apply IH].
  apply fold_kebab_keeps_settled, resolveKebabKey_settles.
Qed.

Lemma resolveKebabKey_settled r camelKey :
  settled r camelKey -> resolveKebabKey r camelKey = r.
Proof.
  unfold settled. rewrite resolveKebabKey_unfold. intros [Hx|Hk].
  - by rewrite Hx.
  - rewrite Hk. by destruct (hasProperty r camelKey).
Qed.

Lemma fold_kebab_settled keys r :
  Forall (settled r) keys -> fold_left resolveKebabKey keys r = r.
Proof.
  induction 1 as [|c keys Hc _ IH]; [done|].
  cbn [fold_left]. by rewrite resolveKebabKey_settled.
Qed.

End KebabFacts.

(** X8. [camelToKebab] leaves no uppercase ASCII letter, is the identity
    exactly on the strings without one, and is therefore idempotent. *)
Theorem X8_camelToKebab_lowercases :
  forall s : string,
    hasUpper (camelToKebab s) = false
    /\ (camelToKebab s = s <-> hasUpper s = false)
    /\ camelToKebab (camelToKebab s) = camelToKebab s.
Proof.
  intros s. split; [apply hasUpper_camelToKebab|].
  split; [apply camelToKebab_fixed|apply camelToKebab_idempotent].
Qed.

(** X9. Two different field names without a hyphen never share their
    hyphenated spelling: on such names [camelToKebab] is injective. *)
Theorem X9_camelToKebab_injective :
  forall s s' : string,
    includes "-" s = false -> includes "-" s' = false ->
    s <> s' -> camelToKebab s <> camelToKebab s'.
Proof. intros s s' Hs Hs' Hne Heq. by apply Hne, camelToKebab_injective. Qed.

Lemma X9_camelToKebab_injective_witness :
  camelToKebab "androidMax" <> camelToKebab "androidmax".
Proof.
  exact (X9_camelToKebab_injective "androidMax" "androidmax" eq_refl eq_refl
           ltac:(discriminate)).
Defined.

(** X10. [resolveKebabCase] only ever touches the declared field names and
    their hyphenated spellings: every other key of the record keeps its
    entry. *)
Theorem X10_kebab_leaves_other_keys :
  forall (flags : Flags) (schema : ZodObject) (key : string),
    Forall (fun camelKey => key <> camelKey /\ key <> camelToKebab camelKey)
      (shape schema).*1 ->
    resolveKebabCase flags schema !! key = flags !! key.
Proof. intros flags schema key. apply fold_kebab_untouched. Qed.

Lemma X10_kebab_leaves_other_keys_witness :
  resolveKebabCase (<["no-build" := VScalar (SBool true)]> ∅)
    (z_object [("androidMax", ZodString)]) !! "no-build"
  = Some (VScalar (SBool true)).
Proof.
  refine (X10_kebab_leaves_other_keys (<["no-build" := VScalar (SBool true)]> ∅)
            (z_object [("androidMax", ZodString)]) "no-build" _).
  simpl. constructor; [|constructor]. split; discriminate.
Defined.

(** X11. [resolveKebabCase] only renames: it neither adds nor drops an
    entry, so the record keeps its size; and resolving a second time
    changes nothing. *)
Theorem X11_kebab_renames_once :
  forall (flags : Flags) (schema : ZodObject),
    size (resolveKebabCase flags schema) = size flags
    /\ resolveKebabCase (resolveKebabCase flags schema) schema
       = resolveKebabCase flags schema.
Proof.
  intros flags schema. unfold resolveKebabCase. split.
  - generalize flags. induction (shape schema).*1 as [|c keys IH]; intros r; [done|].
    cbn [fold_left]. by rewrite IH, resolveKebabKey_size.
  - apply fold_kebab_settled, fold_kebab_settles.
Qed.

(** ** Array normalization and the record handed to the validator *)

Section ValidatorInput.

Implicit Types (flags options : Flags).

Lemma wrapScalar_None b o : wrapScalar b o = None <-> o = None.
Proof. destruct o as [[s|l]|], b; simpl; split; congruence. Qed.

Lemma wrapField_is_Some b key o : is_Some o -> is_Some (wrapField b key o).
Proof. intros [[s|l] ->]; destruct b; by eexists. Qed.

Lemma wrapField_false key o : wrapField false key o = o.
Proof. by destruct o as [[s|l]|]. Qed.

Lemma wrapField_array key o v : wrapField true key o = Some v -> isArray v = true.
Proof.
  unfold wrapField. destruct o as [[s|l]|]; [by intros [= <-]..|].
  destruct (true && inherited key && negb (String.eqb key "__proto__"));
    [by intros [= <-]|done].
Qed.

Lemma declaredArray_undeclared key (fields : list (string * ZodType)) :
  key ∉ fields.*1 -> declaredArray key fields = false.
Proof.
  intros Hkey. apply declaredArray_false. intros zodType Hin.
  destruct Hkey. apply list_elem_of_fmap. by exists (key, zodType).
Qed.

End ValidatorInput.

(** X12. For a schema that does not declare [__proto__],
    [normalizeArrayFields] never removes a key, and adds none that does not
    name a member of [Object.prototype]; afterwards every present field
    that the schema declares array-typed holds a sequence; and normalizing
    a second time changes nothing. *)
Theorem X12_normalization_invariant :
  forall (options : Flags) (schema : ZodObject),
    "__proto__" ∉ (shape schema).*1 ->
    (forall key,
        is_Some (options !! key) ->
        is_Some (normalizeArrayFields options schema !! key))
    /\ (forall key,
           inherited key = false ->
           options !! key = None ->
           normalizeArrayFields options schema !! key = None)
    /\ (forall key zodType v,
           (key, zodType) ∈ shape schema ->
           isZodArrayType zodType = true ->
           normalizeArrayFields options schema !! key = Some v ->
           isArray v = true)
    /\ normalizeArrayFields (normalizeArrayFields options schema) schema
       = normalizeArrayFields options schema.
Proof.
  intros options schema _. unfold normalizeArrayFields. split; [|split; [|split]].
  - intros key. rewrite normalizeArrayFields_lookup_any. apply wrapField_is_Some.
  - intros key Hkey Hnone. rewrite normalizeArrayFields_lookup by done.
    by apply wrapScalar_None.
  - intros key zodType v Hin Harr. rewrite normalizeArrayFields_lookup_any.
    rewrite (declaredArray_true key zodType) by done. apply wrapField_array.
  - apply map_eq. intros key.
    rewrite !normalizeArrayFields_lookup_any, wrapField_twice.
    by destruct (declaredArray key (shape schema)).
Qed.

Lemma X12_normalization_invariant_witness :
  isArray (VArr [SStr "a.txt"]) = true.
Proof.
  refine (proj1 (proj2 (proj2 (X12_normalization_invariant
                          (<["files" := VScalar (SStr "a.txt")]> ∅)
                          (z_object [("files", ZodDefault (ZodArray ZodString) (VArr []))])
                          _)))
            "files" (ZodDefault (ZodArray ZodString) (VArr [])) (VArr [SStr "a.txt"])
            _ eq_refl eq_refl).
  - simpl. intros H%list_elem_of_singleton. discriminate.
  - simpl. apply list_elem_of_here.
Defined.

(** X13. The positional carrier [_] never reaches the validator: the
    record handed to [schema.parse] has no entry under [_], whatever the
    flags, the alias map and the schema are. *)
Theorem X13_validator_never_sees_positionals :
  forall (flags : Flags) (optionsDef : OptionsDefinition),
    normalizedOptions flags optionsDef !! "_" = None.
Proof.
  intros flags optionsDef. unfold normalizedOptions, normalizeArrayFields.
  rewrite normalizeArrayFields_lookup by done. by rewrite lookup_delete_eq.
Qed.

(** X14. A flag whose key is neither an alias, a target, a declared field
    nor the hyphenated spelling of one is not filtered out: it is handed to
    [schema.parse] with its value unchanged. *)
Theorem X14_undeclared_flags_reach_the_validator :
  forall (flags : Flags) (optionsDef : OptionsDefinition) (key : string),
    key <> "_" ->
    (forall entries, aliases optionsDef = Some entries ->
                     (key ∉ entries.*1) /\ (key ∉ entries.*2)) ->
    Forall (fun camelKey => key <> camelKey /\ key <> camelToKebab camelKey)
      (shape (schema optionsDef)).*1 ->
    normalizedOptions flags optionsDef !! key = flags !! key.
Proof.
  intros flags optionsDef key Hcarrier Haliases Hfields.
  unfold normalizedOptions, normalizeArrayFields.
  rewrite normalizeArrayFields_lookup_any, declaredArray_undeclared, wrapField_false.
  - rewrite lookup_delete_ne by done. unfold resolveKebabCase.
    rewrite fold_kebab_untouched by done.
    by rewrite resolveAliases_other_keys.
  - intros Hin. rewrite Forall_forall in Hfields.
    by destruct (Hfields key Hin) as [? _].
Qed.

(** ** Outcomes of processing *)

(** X15. [processCommandExecution] throws exactly in three cases: the
    options schema throws, and its exception is passed on as it is; or the
    options are accepted and the positional schema throws a [ZodError],
    which becomes "Argument validation failed: ..."; or the options are
    accepted and the positional schema throws anything else, which is
    passed on. Options are validated first: the positional schema is only
    consulted once the options are accepted. *)
Theorem X15_thrown_errors_of_execution :
  forall (command : CommandDefinition) (flags : Flags) (argv : list string) (e : Exn),
    processCommandExecution command flags argv = Threw e
    <-> validateOptions flags (options command) = inl e
        \/ exists opts argsSchema,
            validateOptions flags (options command) = inr opts
            /\ args command = Some argsSchema
            /\ ((exists issues,
                    parseArgs argsSchema argv = inl (ZodError issues)
                    /\ e = Error ("Argument validation failed: "
                                  ++ join ", " (issue_to_string <$> issues)))
                \/ (exists msg,
                       parseArgs argsSchema argv = inl (Error msg) /\ e = Error msg)).
Proof.
  intros command flags argv e. unfold processCommandExecution.
  destruct (validateOptions flags (options command)) as [e'|opts].
  { split; [intros [= <-]; by left|].
    intros [[= <-]|(? & ? & ? & _)]; done. }
  split.
  - intros H. right. exists opts.
    destruct (args command) as [argsSchema|]; [|done].
    exists argsSchema. split; [done|]. split; [done|].
    destruct (parseArgs argsSchema argv) as [[msg|issues]|v]; [| |done];
      injection H as <-; eauto.
  - intros [?|(opts' & argsSchema & _ & -> & H)]; [done|].
    by destruct H as [(issues & -> & ->)|(msg & -> & ->)].
Qed.

(** X16. Nothing is rendered when [processConfig] returns a result, the
    help flag is then not [true], and the command of the result is the
    default command when the argument vector has no positional, and
    otherwise what [config.commands[commandName]] finds under the first
    positional, the rest of the positional list being its arguments: the
    command registered under that name, or, when none is registered and the
    name is that of a member of [Object.prototype], that member, which has
    neither options nor a positional schema. *)
Theorem X16_returned_result :
  forall (config : DefineConfig) (argv : list string) rendered (r : ProcessResult),
    processConfig config argv = (rendered, Returned r) ->
    rendered = []
    /\ help_is_true (parseFlags argv) = false
    /\ match (parseFlags_loop argv ∅ []).2 with
       | [] =>
           defaultCommand config = Some (result_command r)
           /\ processCommandExecution (result_command r) (parseFlags argv) [] = Returned r
       | commandName :: remainingArgs =>
           (commands config !! commandName = Some (result_command r)
            \/ (commands config !! commandName = None
                /\ inherited commandName = true
                /\ result_command r = inheritedMember))
           /\ processCommandExecution (result_command r) (parseFlags argv) remainingArgs
              = Returned r
       end.
Proof.
  intros config argv rendered r.
  rewrite processConfig_resolution, parseFlags_loop_positionals.
  destruct (positionals (tokenize argv)) as [|commandName remainingArgs].
  - destruct (help_is_true (parseFlags argv)); [done|].
    destruct (defaultCommand config) as [dc|]; [|done].
    intros [= <- H]. rewrite (processCommandExecution_command _ _ _ _ H). auto.
  - pose proof (lookupCommand_cases config commandName) as Hcases.
    destruct (lookupCommand config commandName) as [command|]; [|done].
    destruct (help_is_true (parseFlags argv)); [done|].
    intros [= <- H]. rewrite (processCommandExecution_command _ _ _ _ H).
    split; [done|]. split; [done|]. split; [|done].
    destruct Hcases as [?|(? & ? & ?)]; [by left|by right].
Qed.

Lemma X16_returned_result_witness :
  (commands (configWithTest commandWithoutOptions) !! "test" = Some commandWithoutOptions
   \/ (commands (configWithTest commandWithoutOptions) !! "test" = None
       /\ inherited "test" = true
       /\ commandWithoutOptions = inheritedMember))
  /\ processCommandExecution commandWithoutOptions (parseFlags ["test"; "a"]) ["a"]
     = Returned {| result_command := commandWithoutOptions;
                   result_options := ∅;
                   result_args := VArr [SStr "a"] |}.
Proof.
  exact (proj2 (proj2 (X16_returned_result
                         (configWithTest commandWithoutOptions) ["test"; "a"] []
                         {| result_command := commandWithoutOptions;
                            result_options := ∅;
                            result_args := VArr [SStr "a"] |}
                         eq_refl))).
Defined.

(** X17. Every error [processConfig] throws is one of three: "No command
    specified." after top-level help, when there is neither a positional
    nor a default command; "Unknown command" naming the first positional
    after top-level help, when that token is not registered; or an error of
    [processCommandExecution] for the resolved command, with nothing
    rendered. *)
Theorem X17_thrown_errors_of_processing :
  forall (config : DefineConfig) (argv : list string) rendered (e : Exn),
    processConfig config argv = (rendered, Threw e) ->
    match (parseFlags_loop argv ∅ []).2 with
    | [] =>
        (rendered = [DisplayHelp] /\ defaultCommand config = None
         /\ e = Error "No command specified.")
        \/ (rendered = []
            /\ exists dc, defaultCommand config = Some dc
                          /\ processCommandExecution dc (parseFlags argv) [] = Threw e)
    | commandName :: remainingArgs =>
        (rendered = [DisplayHelp] /\ commands config !! commandName = None
         /\ e = Error ("Unknown command: " ++ ESC ++ "[36m" ++ commandName
                       ++ ESC ++ "[0m"))
        \/ (rendered = []
            /\ exists command,
                commands config !! commandName = Some command
                /\ processCommandExecution command (parseFlags argv) remainingArgs
                   = Threw e)
    end.
Proof.
  intros config argv rendered e.
  rewrite processConfig_resolution, parseFlags_loop_positionals.
  destruct (positionals (tokenize argv)) as [|commandName remainingArgs].
  - destruct (help_is_true (parseFlags argv)); [done|].
    destruct (defaultCommand config) as [dc|].
    + intros [= <- H]. right. eauto.
    + intros [= <- <-]. by left.
  - pose proof (lookupCommand_cases config commandName) as Hcases.
    destruct (lookupCommand config commandName) as [command|].
    + destruct (help_is_true (parseFlags argv)); [done|].
      intros [= <- H]. right. split; [done|].
      destruct Hcases as [Hreg|(_ & _ & ->)]; [by exists command|].
      (* a member of [Object.prototype] has no schema that could throw *)
      discriminate H.
    + destruct Hcases as [Hnone _]. intros [= <- <-]. by left.
Qed.

Lemma X17_thrown_errors_of_processing_witness :
  ([DisplayHelp] = [DisplayHelp] /\ defaultCommand (configWithTest commandWithoutOptions) = None
   /\ Error "No command specified." = Error "No command specified.")
  \/ ([DisplayHelp] = []
      /\ exists dc, defaultCommand (configWithTest commandWithoutOptions) = Some dc
                    /\ processCommandExecution dc (parseFlags ["--verbose"]) []
                       = Threw (Error "No command specified.")).
Proof.
  exact (X17_thrown_errors_of_processing (configWithTest commandWithoutOptions)
           ["--verbose"] [DisplayHelp] (Error "No command specified.") eq_refl).
Defined.

(** X18. The default command matters only when the argument vector has no
    positional: as soon as there is one, it is looked up as a command name
    and the outcome is the same whatever default command is configured. A
    default command therefore never receives a positional argument. *)
Theorem X18_default_command_only_without_positional :
  forall (config : DefineConfig) (other : option CommandDefinition) (argv : list string),
    (parseFlags_loop argv ∅ []).2 <> [] ->
    processConfig {| meta := meta config; commands := commands config;
                     defaultCommand := other |} argv
    = processConfig config argv.
Proof.
  intros config other argv. rewrite parseFlags_loop_positionals.
  rewrite !processConfig_resolution.
  by destruct (positionals (tokenize argv)).
Qed.

Lemma X18_default_command_only_without_positional_witness :
  processConfig {| meta := None; commands := {[ "test" := commandWithoutOptions ]};
                   defaultCommand := Some commandWithoutOptions |} ["file.txt"]
  = processConfig (configWithTest commandWithoutOptions) ["file.txt"].
Proof.
  exact (X18_default_command_only_without_positional
           (configWithTest commandWithoutOptions) (Some commandWithoutOptions)
           ["file.txt"] ltac:(discriminate)).
Defined.

(** ** Help rendering *)

Section RenderingFacts.

Variable numberToString : Z -> string.
Variable description_of : string -> ZodType -> option string.

Lemma pushed_cases value : pushed value = [] \/ exists s, pushed value = [s].
Proof.
  destruct value as [s|]; [|by left]. simpl.
  destruct (truthy s); [right; by exists s|by left].
Qed.

Lemma padding_aligned maxLength length :
  (length <= maxLength)%nat ->
  padding maxLength length = spaces (maxLength + 4 - length).
Proof. intros H. unfold padding. f_equal. lia. Qed.

Lemma maxOptionLength_bound aliases (fields : list (string * ZodType)) :
  forall acc,
    (acc <= fold_left (fun maxLength '(key, _) =>
                         Nat.max maxLength (String.length (visibleOption aliases key)))
              fields acc)%nat
    /\ Forall (fun entry =>
                 (String.length (visibleOption aliases entry.1)
                  <= fold_left (fun maxLength '(key, _) =>
                                  Nat.max maxLength
                                    (String.length (visibleOption aliases key)))
                       fields acc)%nat) fields.
Proof.
  induction fields as [|[key zodType] fields IH]; intros acc; cbn [fold_left].
  - split; [lia|constructor].
  - destruct (IH (Nat.max acc (String.length (visibleOption aliases key))))
      as [Hacc Hall].
    split; [lia|]. constructor; [cbn [fst]; lia|done].
Qed.

Lemma displayHeader_length commandName description packageName version :
  (List.length (displayHeader commandName description packageName version) <= 1)%nat.
Proof.
  unfold displayHeader.
  destruct (pushed_cases commandName) as [->|[c ->]],
           (pushed_cases description) as [->|[d ->]],
           (pushed_cases packageName) as [->|[p ->]],
           (pushed_cases version) as [->|[v ->]]; simpl; lia.
Qed.

End RenderingFacts.

(** X19. [displayHeader] prints at most one line, and prints nothing
    exactly when the description, the package name, the command name and
    the version are all missing or empty. *)
Theorem X19_header_is_quiet_without_content :
  forall commandName description packageName version : option string,
    (List.length (displayHeader commandName description packageName version) <= 1)%nat
    /\ (displayHeader commandName description packageName version = []
        <-> pushed commandName = [] /\ pushed description = []
            /\ pushed packageName = [] /\ pushed version = []).
Proof.
  intros commandName description packageName version. unfold displayHeader.
  destruct (pushed_cases commandName) as [->|[c ->]],
           (pushed_cases description) as [->|[d ->]],
           (pushed_cases packageName) as [->|[p ->]],
           (pushed_cases version) as [->|[v ->]];
    simpl; (split; [lia|]); split; intros H; try done; by destruct H as (? & ? & ? & ?).
Qed.

(** X20. [displayHelp] prints the header (at most one line), the usage
    line, which names the program ([cli] without a name) and lists the
    command names separated by [|], the COMMANDS heading, one row per
    command in enumeration order, and, when the program has a name, one
    closing line. The rows are aligned: every name is followed by as many
    spaces as it takes to reach one common column, four past the longest
    name, before the description. *)
Theorem X20_command_rows_are_aligned :
  forall (entries : list (string * CommandDefinition)) (meta : option Meta),
    let column := (maxNameLength entries.*1 + 4)%nat in
    let row := fun entry : string * CommandDefinition =>
      "  " ++ ESC ++ "[36m" ++ entry.1 ++ ESC ++ "[0m"
      ++ spaces (column - String.length entry.1)
      ++ orElse (description entry.2) "" in
    let usage :=
      ESC ++ "[1mUSAGE" ++ ESC ++ "[0m " ++ ESC ++ "[36m"
      ++ orElse (metaName meta) "cli" ++ " " ++ join "|" entries.*1
      ++ ESC ++ "[0m" ++ LF in
    let heading := ESC ++ "[1mCOMMANDS" ++ ESC ++ "[0m" ++ LF in
    let closing := fun programName : string =>
      LF ++ "Use " ++ ESC ++ "[36m" ++ programName ++ " <command> --help" ++ ESC
      ++ "[0m for more information about a command." in
    displayHelp entries meta
    = (displayHeader None (metaDescription meta) (metaName meta) (metaVersion meta)
       ++ [usage; heading]
       ++ (row <$> entries)
       ++ (closing <$> pushed (metaName meta)))%list
    /\ (List.length (displayHeader None (metaDescription meta) (metaName meta)
                       (metaVersion meta)) <= 1)%nat
    /\ (List.length (pushed (metaName meta)) <= 1)%nat
    /\ Forall (fun entry => (String.length entry.1 + 4 <= column)%nat) entries.
Proof.
  intros entries meta column row usage heading closing. unfold displayHelp.
  assert (Hmax : Forall (fun entry : string * CommandDefinition =>
                           (String.length entry.1 <= maxNameLength entries.*1)%nat)
                   entries).
  { apply Forall_forall. intros [name command] Hin. simpl.
    apply max_list_elem_of_le, list_elem_of_fmap. exists name. split; [done|].
    apply list_elem_of_fmap. by exists (name, command). }
  cbv zeta.
  split; [|split; [|split]].
  - f_equal. f_equal. f_equal.
    + apply Forall_fmap_ext_1. eapply Forall_impl; [exact Hmax|].
      intros [name command] Hle. simpl in *. unfold row, column. simpl.
      by rewrite padding_aligned.
    + by destruct (pushed_cases (metaName meta)) as [->|[programName ->]].
  - apply displayHeader_length.
  - by destruct (pushed_cases (metaName meta)) as [->|[programName ->]]; simpl; lia.
  - eapply Forall_impl; [exact Hmax|]. intros entry Hle. simpl in *.
    unfold column. lia.
Qed.

Lemma X20_command_rows_are_aligned_witness :
  displayHelp [("build", commandWithoutOptions); ("ls", commandWithoutOptions)] None
  = [ESC ++ "[1mUSAGE" ++ ESC ++ "[0m " ++ ESC ++ "[36mcli build|ls" ++ ESC ++ "[0m" ++ LF;
     ESC ++ "[1mCOMMANDS" ++ ESC ++ "[0m" ++ LF;
     "  " ++ ESC ++ "[36mbuild" ++ ESC ++ "[0m    ";
     "  " ++ ESC ++ "[36mls" ++ ESC ++ "[0m       "].
Proof.
  exact (proj1 (X20_command_rows_are_aligned
                  [("build", commandWithoutOptions); ("ls", commandWithoutOptions)] None)).
Defined.

(** X21. For a command with an options definition, [displayCommandHelp]
    prints the header (at most one line), the usage line, which names the
    program ([cli] without a name) and the command followed by [[OPTIONS]]
    and, for a command with a positional schema, [[ARGS]], the OPTIONS
    heading, and one row per declared field in the order of the schema. The
    rows are aligned: the visible text of every option (hyphenated name
    and alias) is followed by as many spaces as it takes to reach one
    common column, four past the longest visible text. For a command
    without an options definition it prints the header and the usage line
    without [[OPTIONS]], and no option list. *)
Theorem X21_option_rows_are_aligned :
  forall (numberToString : Z -> string)
         (description_of : string -> ZodType -> option string)
         (commandName : string) (command : CommandDefinition) (meta : option Meta),
    let header :=
      displayHeader (Some commandName) (description command) (metaName meta)
        (metaVersion meta) in
    let usage := fun optionsPart : string =>
      (ESC ++ "[1mUSAGE" ++ ESC ++ "[0m " ++ ESC ++ "[36m"
       ++ orElse (metaName meta) "cli" ++ " " ++ commandName ++ optionsPart
       ++ (match args command with Some _ => " [ARGS]" | None => "" end))
      ++ ESC ++ "[0m" ++ LF in
    let heading := ESC ++ "[1mOPTIONS" ++ ESC ++ "[0m" ++ LF in
    (List.length header <= 1)%nat
    /\ (forall optionsDef,
           options command = Some optionsDef ->
           let fields := shape (schema optionsDef) in
           let aliasMap := default [] (aliases optionsDef) in
           let column := (maxOptionLength aliasMap fields + 4)%nat in
           let row := fun entry : string * ZodType =>
             let optionLine :=
               "  " ++ ESC ++ "[36m--" ++ camelToKebab entry.1 ++ ESC ++ "[0m"
               ++ match pushed (aliasOf aliasMap entry.1) with
                  | [] => ""
                  | alias :: _ => ", " ++ ESC ++ "[36m-" ++ alias ++ ESC ++ "[0m"
                  end in
             optionLine
             ++ spaces (column - String.length (visibleOption aliasMap entry.1))
             ++ finalDescription numberToString description_of entry.1 entry.2 in
           displayCommandHelp numberToString description_of commandName command meta
           = (header ++ [usage " [OPTIONS]"; heading] ++ (row <$> fields))%list
           /\ Forall (fun entry =>
                        (String.length (visibleOption aliasMap entry.1) + 4 <= column)%nat)
                fields)
    /\ (options command = None ->
        displayCommandHelp numberToString description_of commandName command meta
        = (header ++ [usage ""])%list).
Proof.
  intros numberToString description_of commandName command meta header usage heading.
  split; [apply displayHeader_length|]. split.
  - intros optionsDef Hoptions fields aliasMap column row.
    unfold displayCommandHelp. rewrite Hoptions. cbv zeta.
    fold fields. fold aliasMap.
    destruct (maxOptionLength_bound aliasMap fields 0%nat) as [_ Hmax].
    fold (maxOptionLength aliasMap fields) in Hmax.
    split.
    + f_equal. cbn [app]. f_equal. f_equal.
      apply Forall_fmap_ext_1. eapply Forall_impl; [exact Hmax|].
      intros [key zodType] Hle. unfold row, column, optionRow. cbn [fst snd] in *.
      by rewrite padding_aligned.
    + eapply Forall_impl; [exact Hmax|]. intros entry Hle. unfold column.
      cbn beta in *. lia.
  - intros Hnone. unfold displayCommandHelp. rewrite Hnone. cbv zeta.
    done.
Qed.

Lemma X21_option_rows_are_aligned_witness :
  displayCommandHelp pretty (fun _ _ => None) "test" commandWithoutOptions None
  = [ESC ++ "[90m(test)" ++ ESC ++ "[0m" ++ LF;
     ESC ++ "[1mUSAGE" ++ ESC ++ "[0m " ++ ESC ++ "[36mcli test" ++ ESC ++ "[0m" ++ LF].
Proof.
  exact (proj2 (proj2 (X21_option_rows_are_aligned pretty (fun _ _ => None) "test"
                         commandWithoutOptions None)) eq_refl).
Defined.

(** X22. The default shown for a field does not depend on the optional and
    nullable layers wrapped around its type, however many and in whatever
    order; and a string default is shown in double quotes, so that it
    never reads like a boolean default. *)
Theorem X22_default_value_rendering :
  forall numberToString : Z -> string,
    (forall (wrappers : list Wrapper) (zodType : ZodType),
        extractDefaultValue numberToString (foldr wrap zodType wrappers)
        = extractDefaultValue numberToString zodType)
    /\ (forall (inner : ZodType) (x : string) (b : bool),
           extractDefaultValue numberToString (ZodDefault inner (VScalar (SStr x)))
           = Some (QUOTE ++ x ++ QUOTE)
           /\ extractDefaultValue numberToString (ZodDefault inner (VScalar (SStr x)))
              <> extractDefaultValue numberToString
                   (ZodDefault inner (VScalar (SBool b)))).
Proof.
  intros numberToString. split.
  - intros wrappers zodType. induction wrappers as [|[] wrappers IH]; [done|..];
      simpl; exact IH.
  - intros inner x b. split; [done|]. simpl. by destruct b.
Qed.

(** ** Instances of the further properties *)

Lemma X8_camelToKebab_lowercases_witness : camelToKebab "android-max" = "android-max".
Proof.
  exact (proj2 (proj1 (proj2 (X8_camelToKebab_lowercases "android-max"))) eq_refl).
Defined.

Lemma X14_undeclared_flags_reach_the_validator_witness :
  normalizedOptions (parseFlags ["test"; "--unknown"])
    {| schema := z_object [("verbose", ZodBoolean)]; aliases := Some [("v", "verbose")] |}
  !! "unknown"
  = parseFlags ["test"; "--unknown"] !! "unknown".
Proof.
  refine (X14_undeclared_flags_reach_the_validator
            (parseFlags ["test"; "--unknown"])
            {| schema := z_object [("verbose", ZodBoolean)];
               aliases := Some [("v", "verbose")] |}
            "unknown" _ _ _).
  - discriminate.
  - intros entries [= <-]. simpl.
    split; intros H%list_elem_of_singleton; discriminate.
  - simpl. constructor; [|constructor]. split; discriminate.
Defined.

Lemma X15_thrown_errors_of_execution_witness :
  processCommandExecution (commandWithOptions [("name", ZodString)]) ∅ []
  = Threw (ZodError [{| path := [PKey "name"]; message := "Required" |}]).
Proof.
  refine (proj2 (X15_thrown_errors_of_execution
                   (commandWithOptions [("name", ZodString)]) ∅ []
                   (ZodError [{| path := [PKey "name"]; message := "Required" |}])) _).
  left. reflexivity.
Defined.

Lemma X19_header_is_quiet_without_content_witness :
  displayHeader (Some "") None (Some "") None = [].
Proof.
  refine (proj2 (proj2 (X19_header_is_quiet_without_content
                          (Some "") None (Some "") None)) _).
  by repeat split.
Defined.

(** ** Cutting the argument vector before a flag *)

Lemma cuttable_step a pre :
  cuttable pre ->
  (forall nextArg pre', pre = nextArg :: pre' -> cuttable pre') ->
  cuttable (a :: pre).
Proof.
  intros Hpre Hskip arg rest Hdash.
  change ((a :: pre) ++ arg :: rest)%list with (a :: (pre ++ arg :: rest))%list.
  assert (Hlook : forall key,
             match (pre ++ arg :: rest)%list with
             | nextArg :: rest' =>
                 if truthy nextArg && negb (startsWith nextArg "-")
                 then Flag key (SStr nextArg) :: tokenize rest'
                 else Flag key (SBool true) :: tokenize (pre ++ arg :: rest)
             | [] => Flag key (SBool true) :: tokenize (pre ++ arg :: rest)
             end
             = (match pre with
                | nextArg :: rest' =>
                    if truthy nextArg && negb (startsWith nextArg "-")
                    then Flag key (SStr nextArg) :: tokenize rest'
                    else Flag key (SBool true) :: tokenize pre
                | [] => Flag key (SBool true) :: tokenize pre
                end ++ tokenize (arg :: rest))%list).
  { intros key. destruct pre as [|nextArg pre'].
    - change ([] ++ arg :: rest)%list with (arg :: rest). cbv beta iota.
      by rewrite Hdash, andb_false_r.
    - change ((nextArg :: pre') ++ arg :: rest)%list
        with (nextArg :: (pre' ++ arg :: rest))%list.
      cbv beta iota.
      destruct (truthy nextArg && negb (startsWith nextArg "-")).
      + by rewrite (Hskip nextArg pre' eq_refl arg rest Hdash).
      + change (nextArg :: (pre' ++ arg :: rest))%list
          with ((nextArg :: pre') ++ arg :: rest)%list.
        by rewrite (Hpre arg rest Hdash). }
  cbn [tokenize].
  destruct (negb (truthy a)); [by apply Hpre|].
  destruct (startsWith a "--").
  - destruct (includes "=" (slice 2 a)); [|apply Hlook].
    destruct (split "=" (slice 2 a)) as [|flagName valueParts]; [by apply Hpre|].
    destruct (truthy flagName); [|by apply Hpre].
    by rewrite (Hpre arg rest Hdash).
  - destruct (startsWith a "-" && (1 <? String.length a)%nat).
    + destruct (String.length (slice 1 a) =? 1)%nat; [apply Hlook|].
      by rewrite (Hpre arg rest Hdash), app_assoc.
    + by rewrite (Hpre arg rest Hdash).
Qed.

Lemma tokenize_cut pre : cuttable pre.
Proof.
  induction pre as [|a _|a b pre IHpre IHb] using argv_ind2.
  - by intros arg rest Hdash.
  - apply cuttable_step; [by intros arg rest Hdash|discriminate].
  - apply cuttable_step; [done|]. by intros ? ? [= -> ->].
Qed.

(** X23. A token that begins with a dash is never taken as the value of
    the flag before it. The loop can therefore be cut before any such
    token: running it on the whole vector is running it on the part before
    the token and going on, from the state reached, with the token and
    what follows. *)
Theorem X23_cut_before_a_dash_token :
  forall (pre : list string) (arg : string) (rest : list string)
         (flags : Flags) (nonFlags : list string),
    startsWith arg "-" = true ->
    parseFlags_loop (pre ++ arg :: rest) flags nonFlags
    = parseFlags_loop (arg :: rest)
        (parseFlags_loop pre flags nonFlags).1 (parseFlags_loop pre flags nonFlags).2.
Proof.
  intros pre arg rest flags nonFlags Hdash.
  rewrite !parseFlags_loop_tokenize, (tokenize_cut pre arg rest Hdash), fold_left_app.
  by destruct (fold_left replay (tokenize pre) (flags, nonFlags)).
Qed.

Lemma X23_cut_before_a_dash_token_witness :
  parseFlags_loop ["--count"; "-5"] ∅ []
  = parseFlags_loop ["-5"] (addFlag "count" (SBool true) ∅) [].
Proof.
  exact (X23_cut_before_a_dash_token ["--count"] "-5" [] ∅ [] eq_refl).
Defined.
